(** * disperse.js: the [Operation] coordinator of src/index.ts

    A shallow embedding of the class [Operation] and of the pull loop of
    [NamedWorker].  The class is asynchronous: every [await] in the source is
    a suspension point, and between two suspension points the code runs
    without interruption.  The embedding therefore has

    - a record [Operation] with the fields of the class,
    - a record [Sys] that adds what the JavaScript run time holds for it
      (the promises it allocated and the continuations suspended at an
      [await]),
    - one state-monad function per method, covering the code from its entry
      (or from an [await]) up to the next [await],
    - a transition function [step] whose inputs are the things the
      environment decides: which suspended continuation is resumed next, what
      the task provider and the action runners answer, when task bodies
      submit actions and when they settle.

    Every function carries the line numbers of the source it embeds.

    What stays outside the class is an input of [step]: the provider's
    promise resolves with a task or with nothing, a runner's promise
    resolves or rejects, or the runner throws before it returns one, a task
    body submits an action or settles.  Workers are [NamedWorker]s.  The
    resumption order of ready continuations is left open, so every order the
    JavaScript job queue can produce is a run.  A number is a finite one, as
    a rational, or an infinity, or NaN: the class only compares a number
    with the length of an array. *)

From stdpp Require Import base option list.
From Stdlib Require Import QArith Qround Lqa.
Close Scope Q_scope.

Set Default Proof Using "Type".

(** ** Data *)

Definition WorkerId := nat.
(** A task is a function object; only its identity matters to the class. *)
Definition Task := nat.
(** Payloads [A] and results [R] of actions are opaque to the class. *)
Definition Payload := nat.
Definition Result := nat.
Definition PromiseId := nat.

(** The length of an array, as a JavaScript number. *)
Definition num (n : nat) : Q := inject_Z (Z.of_nat n).
Arguments num : simpl never.

(** A JavaScript number (the type of [maxConcurrentTasks], L14). *)
Inductive Number :=
| Finite (q : Q)
| PosInfinity
| NegInfinity
| NaN.

(** A whole number that is not negative, as the lengths of arrays are. *)
Definition whole (n : nat) : Number := Finite (num n).

(** [n >= c] of JavaScript for the length [n] of an array and a number [c]
    (L114, L137): every comparison with NaN is false. *)
Definition length_ge (n : nat) (c : Number) : bool :=
  match c with
  | Finite q => Qle_bool q (num n)
  | PosInfinity => false
  | NegInfinity => true
  | NaN => false
  end.
Arguments length_ge : simpl never.

Inductive PromiseState (V : Type) : Type :=
| Pending
| Resolved (v : V)
| Rejected.
Arguments Pending {V}.
Arguments Resolved {V} v.
Arguments Rejected {V}.

(** Calling the [resolve] function of a promise: only a pending promise
    changes. *)
Definition resolvePromise {V} (v : V) (p : PromiseState V) : PromiseState V :=
  match p with
  | Pending => Resolved v
  | _ => p
  end.

(** L8: [type WrappedAction = {a: Action, callback: (r: R) => void}].  The
    callback is always the [resolve] function of the promise made by
    [performAction] (L78-81); it is named by that promise. *)
Record WrappedAction := mkWrapped { a : Payload; callback : PromiseId }.

Inductive ActionDistributorResult := Succeeded | Failed | NoMoreActions.

(** L89: the result type of [getNextAction]. *)
Inductive Pulled := Got (act : WrappedAction) | NoActions.

(** L13-28: the fields of the class. *)
Record Operation := mkOperation {
  taskProvider : bool;                 (* L13: [true] until set to [null] *)
  maxConcurrentTasks : option Number;       (* L14: [number | undefined] *)
  workers : list WorkerId;             (* L16 *)
  pendingTasks : list Task;            (* L17 *)
  runningTasks : list Task;            (* L18 *)
  failedTasks : list Task;             (* L19 *)
  queuedActions : list WrappedAction;  (* L20 *)
  runningActions : list WrappedAction; (* L21 *)
  _notifyPromise : option PromiseId;   (* L24 *)
  _notifyResolve : option PromiseId;   (* L25: the promise it resolves *)
  _finishedPromise : PromiseState unit (* L27-28 *)
}.

(** Who called [enqueueTasksIfNeeded]: [getNextAction] (L90), which awaits
    it, or a task's completion handler (L148, L155), which drops its
    promise. *)
Inductive Caller := FromGetNextAction (w : WorkerId) | FromTaskHandler.

(** A continuation suspended at an [await]. *)
Inductive Thread :=
| InStartNewTask (c : Caller)                       (* L125 *)
| InEnqueueTasks (c : Caller)                       (* L118 *)
| InGetNextAction (w : WorkerId)                    (* L90 *)
| InGetNextActionWait (w : WorkerId) (p : option PromiseId) (* L98 *)
| InDistributeAction (w : WorkerId) (r : Pulled)    (* L67 *)
| InRunner (w : WorkerId) (act : WrappedAction)     (* L69 *)
| InWorkerRun (w : WorkerId) (r : ActionDistributorResult) (* L189 *)
| InStartPendingTasks (p : option PromiseId).       (* L138 *)

(** What a run lets an observer see, in the order it happens. *)
Inductive Event :=
| EvProviderCall (queued running : nat) (ceiling : Number)
    (* L125: the provider is invoked; the queue length, the number of running
       tasks and the ceiling at that instant *)
| EvExhausted                     (* L126-128: the provider yielded no task *)
| EvTaskStart (t : Task)          (* L142-143 *)
| EvTaskResolve (t : Task)        (* L144 *)
| EvTaskReject (t : Task)         (* L150 *)
| EvSubmit (act : WrappedAction)  (* L79 *)
| EvDequeue (act : WrappedAction) (* L91-93, L99-101 *)
| EvOutcome (w : WorkerId) (r : ActionDistributorResult)
    (* the value [distributeAction] reports to the worker *)
| EvCompleted (queued running : nat) (supply : bool).
    (* L107: the promise of [waitUntilFinished] goes from pending to
       resolved; queue length, number of running tasks and whether the
       provider field is still set at that instant *)

Record Sys := mkSys {
  op : Operation;
  threads : list Thread;                 (* suspended continuations *)
  taskBodies : list Task;                (* promises of started tasks, pending *)
  handles : list (PromiseState Result);
    (* L78: the promises made inside performAction; their [resolve] is the
       callback of the action *)
  returned : list (PromiseState Result);
    (* L77: the promises of the async function performAction, which its
       callers hold; the n-th is resolved with the n-th of [handles] and
       follows it *)
  notifyPromises : list (PromiseState unit) (* promises made by waitForNotify *)
}.

Global Instance WrappedAction_eq_dec : EqDecision WrappedAction.
Proof. solve_decision. Defined.
Global Instance ActionDistributorResult_eq_dec : EqDecision ActionDistributorResult.
Proof. solve_decision. Defined.
Global Instance Pulled_eq_dec : EqDecision Pulled.
Proof. solve_decision. Defined.
Global Instance Caller_eq_dec : EqDecision Caller.
Proof. solve_decision. Defined.
Global Instance Thread_eq_dec : EqDecision Thread.
Proof. solve_decision. Defined.

(** ** Field updates *)

Definition set_taskProvider (v : bool) (o : Operation) : Operation :=
  mkOperation v (maxConcurrentTasks o) (workers o) (pendingTasks o)
    (runningTasks o) (failedTasks o) (queuedActions o) (runningActions o)
    (_notifyPromise o) (_notifyResolve o) (_finishedPromise o).
Definition set_workers (v : list WorkerId) (o : Operation) : Operation :=
  mkOperation (taskProvider o) (maxConcurrentTasks o) v (pendingTasks o)
    (runningTasks o) (failedTasks o) (queuedActions o) (runningActions o)
    (_notifyPromise o) (_notifyResolve o) (_finishedPromise o).
Definition set_pendingTasks (v : list Task) (o : Operation) : Operation :=
  mkOperation (taskProvider o) (maxConcurrentTasks o) (workers o) v
    (runningTasks o) (failedTasks o) (queuedActions o) (runningActions o)
    (_notifyPromise o) (_notifyResolve o) (_finishedPromise o).
Definition set_runningTasks (v : list Task) (o : Operation) : Operation :=
  mkOperation (taskProvider o) (maxConcurrentTasks o) (workers o)
    (pendingTasks o) v (failedTasks o) (queuedActions o) (runningActions o)
    (_notifyPromise o) (_notifyResolve o) (_finishedPromise o).
Definition set_failedTasks (v : list Task) (o : Operation) : Operation :=
  mkOperation (taskProvider o) (maxConcurrentTasks o) (workers o)
    (pendingTasks o) (runningTasks o) v (queuedActions o) (runningActions o)
    (_notifyPromise o) (_notifyResolve o) (_finishedPromise o).
Definition set_queuedActions (v : list WrappedAction) (o : Operation) : Operation :=
  mkOperation (taskProvider o) (maxConcurrentTasks o) (workers o)
    (pendingTasks o) (runningTasks o) (failedTasks o) v (runningActions o)
    (_notifyPromise o) (_notifyResolve o) (_finishedPromise o).
Definition set_runningActions (v : list WrappedAction) (o : Operation) : Operation :=
  mkOperation (taskProvider o) (maxConcurrentTasks o) (workers o)
    (pendingTasks o) (runningTasks o) (failedTasks o) (queuedActions o) v
    (_notifyPromise o) (_notifyResolve o) (_finishedPromise o).
Definition set_notify (v : option PromiseId) (o : Operation) : Operation :=
  mkOperation (taskProvider o) (maxConcurrentTasks o) (workers o)
    (pendingTasks o) (runningTasks o) (failedTasks o) (queuedActions o)
    (runningActions o) v v (_finishedPromise o).
Definition set_finishedPromise (v : PromiseState unit) (o : Operation) : Operation :=
  mkOperation (taskProvider o) (maxConcurrentTasks o) (workers o)
    (pendingTasks o) (runningTasks o) (failedTasks o) (queuedActions o)
    (runningActions o) (_notifyPromise o) (_notifyResolve o) v.

Definition set_op (o : Operation) (s : Sys) : Sys :=
  mkSys o (threads s) (taskBodies s) (handles s) (returned s) (notifyPromises s).
Definition set_threads (v : list Thread) (s : Sys) : Sys :=
  mkSys (op s) v (taskBodies s) (handles s) (returned s) (notifyPromises s).
Definition set_taskBodies (v : list Task) (s : Sys) : Sys :=
  mkSys (op s) (threads s) v (handles s) (returned s) (notifyPromises s).
Definition set_handles (v : list (PromiseState Result)) (s : Sys) : Sys :=
  mkSys (op s) (threads s) (taskBodies s) v (returned s) (notifyPromises s).
Definition set_returned (v : list (PromiseState Result)) (s : Sys) : Sys :=
  mkSys (op s) (threads s) (taskBodies s) (handles s) v (notifyPromises s).
Definition set_notifyPromises (v : list (PromiseState unit)) (s : Sys) : Sys :=
  mkSys (op s) (threads s) (taskBodies s) (handles s) (returned s) v.

(** ** The monad: state passing with a log of events *)

Definition M (X : Type) : Type := Sys → X * Sys * list Event.

Global Instance M_ret : MRet M := λ X (x : X) s, (x, s, []).
Global Instance M_bind : MBind M := λ X Y (f : X → M Y) (m : M X) s,
  let '(x, s1, e1) := m s in
  let '(y, s2, e2) := f x s1 in
  (y, s2, e1 ++ e2).

Definition get : M Sys := λ s, (s, s, []).
Definition modify (f : Sys → Sys) : M unit := λ s, (tt, f s, []).
Definition emit (e : Event) : M unit := λ s, (tt, s, [e]).
(** Assignment to fields of [this]. *)
Definition this (f : Operation → Operation) : M unit :=
  modify (λ s, set_op (f (op s)) s).

(** ** The methods of [Operation] *)

(** L160-165. *)
Definition getMaxConcurrentTasks (o : Operation) : Number :=
  match maxConcurrentTasks o with
  | Some c => c
  | None => whole (length (workers o) * 3)
  end.

(** L30-36. *)
Definition notifyAll : M unit :=
  s ← get;
  match _notifyResolve (op s) with
  | Some p =>
      modify (λ s, set_notifyPromises
                     (alter (resolvePromise ()) p (notifyPromises s)) s);;
      this (set_notify None)
  | None => mret ()
  end.

(** L38-41.  The value is what the caller's [await] receives: the pending
    promise on L39, and [undefined] ([None]) on L40, where the promise that
    was just made is stored but not returned. *)
Definition waitForNotify : M (option PromiseId) :=
  s ← get;
  match _notifyPromise (op s) with
  | Some p => mret (Some p)
  | None =>
      let p := length (notifyPromises s) in
      modify (set_notifyPromises (notifyPromises s ++ [Pending]));;
      this (set_notify (Some p));;
      mret None
  end.

(** L107: [this._finishedResolve()]. *)
Definition finishedResolve : M unit :=
  s ← get;
  match _finishedPromise (op s) with
  | Pending =>
      this (set_finishedPromise (Resolved ()));;
      emit (EvCompleted (length (queuedActions (op s)))
                        (length (runningTasks (op s)))
                        (taskProvider (op s)))
  | _ => mret ()
  end.

(** L122-125: [startNewTask] from its entry to the [await] of the provider's
    promise.  [Some t]: suspended as [t]; [None]: returned on L123. *)
Definition startNewTask (c : Caller) : M (option Thread) :=
  s ← get;
  if taskProvider (op s) then
    emit (EvProviderCall (length (queuedActions (op s)))
                         (length (runningTasks (op s)))
                         (getMaxConcurrentTasks (op s)));;
    mret (Some (InStartNewTask c))
  else mret None.

(** L111-120: one pass from the head of the loop of [enqueueTasksIfNeeded]
    to its [await] on L118 or to its return.  [Some t]: suspended as [t],
    inside [startNewTask] or on the promise it returned; [None]: the loop
    ended and the function returned. *)
Definition enqueueTasksIfNeeded (c : Caller) : M (option Thread) :=
  s ← get;
  if (length (queuedActions (op s)) =? 0) && taskProvider (op s) then
    if length_ge (length (runningTasks (op s))) (getMaxConcurrentTasks (op s)) then
      mret None
    else
      r ← startNewTask c;
      mret (Some (default (InEnqueueTasks c) r))
  else mret None.

(** L135-143: [startPendingTasks] from the head of its loop to the [await]
    on L138 or to its end.  The value lists the continuation it leaves
    behind, if any; nobody awaits its promise (L132). *)
Definition startPendingTasks : M (list Thread) :=
  s ← get;
  if length_ge (length (runningTasks (op s))) (getMaxConcurrentTasks (op s)) then
    p ← waitForNotify;
    mret [InStartPendingTasks p]
  else
    match pendingTasks (op s) with
    | [] => mret []
    | task :: rest =>
        this (set_pendingTasks rest);;
        this (λ o, set_runningTasks (runningTasks o ++ [task]) o);;
        modify (λ s, set_taskBodies (taskBodies s ++ [task]) s);;
        emit (EvTaskStart task);;
        mret []
    end.

(** L125-133: [startNewTask] resumed with the provider's answer, to its
    return; its caller is then suspended on L118. *)
Definition startNewTask_resume (c : Caller) (r : option Task) : M (list Thread) :=
  match r with
  | None =>
      this (set_taskProvider false);;
      emit EvExhausted;;
      mret [InEnqueueTasks c]
  | Some task =>
      this (λ o, set_pendingTasks (pendingTasks o ++ [task]) o);;
      spawned ← startPendingTasks;
      mret (InEnqueueTasks c :: spawned)
  end.

(** L118-120 resumed after [startNewTask] returned: the loop goes round; when
    it ends, [getNextAction] is suspended on L90, and a completion handler
    has nothing left to do. *)
Definition enqueueTasksIfNeeded_resume (c : Caller) : M (list Thread) :=
  r ← enqueueTasksIfNeeded c;
  match r, c with
  | Some t, _ => mret [t]
  | None, FromGetNextAction w => mret [InGetNextAction w]
  | None, FromTaskHandler => mret []
  end.

(** L89-90: [getNextAction] from its entry to its first [await]. *)
Definition getNextAction (w : WorkerId) : M Thread :=
  r ← enqueueTasksIfNeeded (FromGetNextAction w);
  mret (default (InGetNextAction w) r).

(** L91-95 and L99-103: [shift], and the [push] if there was an action. *)
Definition takeAction : M (option WrappedAction) :=
  s ← get;
  match queuedActions (op s) with
  | [] => mret None
  | action :: rest =>
      this (set_queuedActions rest);;
      this (λ o, set_runningActions (runningActions o ++ [action]) o);;
      emit (EvDequeue action);;
      mret (Some action)
  end.

(** L91-108: [getNextAction] resumed on L90 or on L98, to its next [await] or
    to its return. *)
Definition getNextAction_resume (w : WorkerId) : M Thread :=
  action ← takeAction;
  match action with
  | Some action => mret (InDistributeAction w (Got action))
  | None =>
      s ← get;
      if negb (length (runningTasks (op s)) =? 0) then
        p ← waitForNotify;
        mret (InGetNextActionWait w p)
      else
        finishedResolve;;
        mret (InDistributeAction w NoActions)
  end.

(** L66-67: [distributeAction] from its entry to its first [await]. *)
Definition distributeAction (w : WorkerId) : M Thread := getNextAction w.

(** L68-69: [distributeAction] resumed with what [getNextAction] returned.
    The call [runner(action.a)] on L69 returns a promise, which is awaited,
    or it throws ([throws]): then the async function rejects and no [then]
    or [catch] of L70-74 is reached, the [await] on L189 throws, and [run]
    ends by the exception, leaving nothing of the worker. *)
Definition distributeAction_resume (w : WorkerId) (r : Pulled)
    (throws : bool) : M (list Thread) :=
  match r with
  | NoActions =>
      emit (EvOutcome w NoMoreActions);;
      mret [InWorkerRun w NoMoreActions]
  | Got action => if throws then mret [] else mret [InRunner w action]
  end.

(** L69-74: the runner's promise settles, [Some r] for resolved with [r] and
    [None] for rejected. *)
Definition runner_settled (w : WorkerId) (action : WrappedAction)
    (r : option Result) : M Thread :=
  match r with
  | Some result =>
      modify (λ s, set_handles
                     (alter (resolvePromise result) (callback action) (handles s)) s);;
      emit (EvOutcome w Succeeded);;
      mret (InWorkerRun w Succeeded)
  | None =>
      emit (EvOutcome w Failed);;
      mret (InWorkerRun w Failed)
  end.

(** L186-191: the loop of [NamedWorker.run]. *)
Definition run_resume (w : WorkerId) (r : ActionDistributorResult) : M (list Thread) :=
  match r with
  | NoMoreActions => mret []
  | _ => t ← distributeAction w; mret [t]
  end.

(** L54-58. *)
Definition registerWorker (w : WorkerId) : M (list Thread) :=
  this (λ o, set_workers (workers o ++ [w]) o);;
  t ← distributeAction w;
  mret [t].

(** L60-62. *)
Definition waitUntilFinished (s : Sys) : PromiseState unit :=
  _finishedPromise (op s).

(** L77-85.  The async function returns its own promise, resolved with the
    promise made on L78: the caller's promise is pending on return and
    follows the inner one later ([Adopt] below).  Both are named by the
    same number. *)
Definition performAction (x : Payload) : M PromiseId :=
  s ← get;
  let h := length (handles s) in
  modify (set_handles (handles s ++ [Pending]));;
  this (λ o, set_queuedActions (queuedActions o ++ [mkWrapped x h]) o);;
  emit (EvSubmit (mkWrapped x h));;
  notifyAll;;
  modify (λ s, set_returned (returned s ++ [Pending]) s);;
  mret h.

(** The promise that [performAction] returned takes the state of the promise
    of L78 once that one is resolved. *)
Definition adopt (p : PromiseId) (s : Sys) : option Sys :=
  match handles s !! p with
  | Some (Resolved r) =>
      Some (set_returned (alter (resolvePromise r) p (returned s)) s)
  | _ => None
  end.

(** [Array.prototype.indexOf]; [None] stands for -1. *)
Fixpoint indexOf (t : Task) (l : list Task) : option nat :=
  match l with
  | [] => None
  | x :: l' => if decide (x = t) then Some 0 else S <$> indexOf t l'
  end.

(** L145-146 and L152-153. *)
Definition removeRunning (t : Task) (l : list Task) : list Task :=
  match indexOf t l with
  | Some i => delete i l
  | None => l
  end.

(** L144-156: the handlers of a task's promise. *)
Definition taskSettled (task : Task) (ok : bool) : M (list Thread) :=
  (if ok then emit (EvTaskResolve task)
   else this (λ o, set_failedTasks (failedTasks o ++ [task]) o);;
        emit (EvTaskReject task));;
  this (λ o, set_runningTasks (removeRunning task (runningTasks o)) o);;
  notifyAll;;
  r ← enqueueTasksIfNeeded FromTaskHandler;
  mret (option_list r).

(** L43-50: the constructor. *)
Definition new_Operation (maxConcurrentTasks : option Number) : Sys :=
  mkSys (mkOperation true maxConcurrentTasks [] [] [] [] [] [] None None Pending)
        [] [] [] [] [].

(** ** The event loop *)

Inductive Input :=
| RegisterWorker (w : WorkerId)
    (* the driver calls [registerWorker] *)
| Submit (x : Payload)
    (* a task body calls [performAction] *)
| Settle (task : Task) (ok : bool)
    (* the promise of a started task resolves or rejects *)
| ProviderReturns (c : Caller) (r : option Task)
    (* the provider's promise awaited on L125 resolves *)
| RunnerReturns (w : WorkerId) (action : WrappedAction) (r : option Result)
    (* the runner's promise awaited on L69 resolves or rejects *)
| RunnerThrows (w : WorkerId) (action : WrappedAction)
    (* the runner, called on L69, throws instead of returning a promise:
       [distributeAction] rejects and the loop of the worker (L189) ends *)
| Adopt (p : PromiseId)
    (* the promise returned by [performAction] follows the one of L78 *)
| Tick (t : Thread).
    (* a continuation that awaits a promise of the class itself runs *)

(** Take one occurrence of [x] out of [l]. *)
Fixpoint pluck `{EqDecision X} (x : X) (l : list X) : option (list X) :=
  match l with
  | [] => None
  | y :: l' => if decide (y = x) then Some l' else (y ::.) <$> pluck x l'
  end.

(** Whether the promise a continuation awaits has settled.  [await] of a
    value that is not a promise ([None] from [waitForNotify]) and of the
    promise of an async function that has returned are always ready. *)
Definition awaited (p : option PromiseId) (s : Sys) : bool :=
  match p with
  | None => true
  | Some p =>
      match notifyPromises s !! p with
      | Some (Resolved _) => true
      | _ => false
      end
  end.

(** The continuation of a thread that awaits a promise of the class. *)
Definition resume (t : Thread) (s : Sys) : option (M (list Thread)) :=
  match t with
  | InStartNewTask _ | InRunner _ _ => None
  | InEnqueueTasks c => Some (enqueueTasksIfNeeded_resume c)
  | InGetNextAction w => Some (t' ← getNextAction_resume w; mret [t'])
  | InGetNextActionWait w p =>
      if awaited p s then Some (t' ← getNextAction_resume w; mret [t'])
      else None
  | InDistributeAction w r => Some (distributeAction_resume w r false)
  | InWorkerRun w r => Some (run_resume w r)
  | InStartPendingTasks p =>
      if awaited p s then Some startPendingTasks else None
  end.

(** Run [m] and add the continuations it leaves to the suspended ones. *)
Definition perform (m : M (list Thread)) (s : Sys) : Sys * list Event :=
  let '(ts, s', es) := m s in
  (set_threads (threads s' ++ ts) s', es).

Definition step (i : Input) (s : Sys) : option (Sys * list Event) :=
  match i with
  | RegisterWorker w => Some (perform (registerWorker w) s)
  | Submit x => Some (perform (performAction x;; mret []) s)
  | Settle task ok =>
      rest ← pluck task (taskBodies s);
      Some (perform (taskSettled task ok) (set_taskBodies rest s))
  | ProviderReturns c r =>
      rest ← pluck (InStartNewTask c) (threads s);
      Some (perform (startNewTask_resume c r) (set_threads rest s))
  | RunnerReturns w action r =>
      rest ← pluck (InRunner w action) (threads s);
      Some (perform (t ← runner_settled w action r; mret [t]) (set_threads rest s))
  | RunnerThrows w action =>
      rest ← pluck (InDistributeAction w (Got action)) (threads s);
      Some (perform (distributeAction_resume w (Got action) true)
              (set_threads rest s))
  | Adopt p =>
      s' ← adopt p s;
      Some (s', [])
  | Tick t =>
      rest ← pluck t (threads s);
      m ← resume t s;
      Some (perform m (set_threads rest s))
  end.

Fixpoint exec (ins : list Input) (s : Sys) : option (Sys * list Event) :=
  match ins with
  | [] => Some (s, [])
  | i :: ins' =>
      '(s1, e1) ← step i s;
      '(s2, e2) ← exec ins' s1;
      Some (s2, e1 ++ e2)
  end.

(** A run of a fresh [Operation]: the inputs [ins] lead to state [s] and let
    the events [h] be observed, oldest first. *)
Definition runs (ceiling : option Number) (ins : list Input)
    (s : Sys) (h : list Event) : Prop :=
  exec ins (new_Operation ceiling) = Some (s, h).

(** ** What a history says *)

Definition submitted (h : list Event) : list WrappedAction :=
  omap (λ e, match e with EvSubmit act => Some act | _ => None end) h.
Definition dequeued (h : list Event) : list WrappedAction :=
  omap (λ e, match e with EvDequeue act => Some act | _ => None end) h.
Definition started (h : list Event) : list Task :=
  omap (λ e, match e with EvTaskStart t => Some t | _ => None end) h.
Definition resolved (h : list Event) : list Task :=
  omap (λ e, match e with EvTaskResolve t => Some t | _ => None end) h.
Definition rejected (h : list Event) : list Task :=
  omap (λ e, match e with EvTaskReject t => Some t | _ => None end) h.
Definition is_call (e : Event) : bool :=
  match e with EvProviderCall _ _ _ => true | _ => false end.
Definition completed (h : list Event) : list (nat * nat * bool) :=
  omap (λ e, match e with EvCompleted q r x => Some (q, r, x) | _ => None end) h.
(** How many times the promise of [waitUntilFinished] completed. *)
Definition completions (h : list Event) : nat := length (completed h).

(** The promises of [performAction] that a continuation still holds the
    [resolve] function of. *)
Definition thread_handles (t : Thread) : list PromiseId :=
  match t with
  | InDistributeAction _ (Got act) | InRunner _ act => [callback act]
  | _ => []
  end.

Fixpoint threads_handles (ts : list Thread) : list PromiseId :=
  match ts with
  | [] => []
  | t :: ts => thread_handles t ++ threads_handles ts
  end.

(** The promises of [performAction] whose [resolve] function is reachable:
    from the queue or from a continuation. *)
Definition held (s : Sys) : list PromiseId :=
  (callback <$> queuedActions (op s)) ++ threads_handles (threads s).


(** ** Properties kept along a run *)

(** What a run keeps true about exhaustion: once it has been observed the
    provider field is [null], and nothing after it is an invocation. *)
Definition exhaustion_inv (s : Sys) (h : list Event) : Prop :=
  (EvExhausted ∈ h → taskProvider (op s) = false) ∧
  (∀ h1 h2, h = h1 ++ EvExhausted :: h2 →
            Forall (λ ev, is_call ev = false) h2).

(** The tasks whose promise rejected, and those whose promise resolved, in
    the inputs of a run. *)
Definition rejections (ins : list Input) : list Task :=
  omap (λ i, match i with Settle t false => Some t | _ => None end) ins.
Definition resolutions (ins : list Input) : list Task :=
  omap (λ i, match i with Settle t true => Some t | _ => None end) ins.

(** What a run keeps true about tasks: the started tasks whose promise is
    pending are the running set, the failed list is the list of the tasks
    whose promise rejected, and a started task is running, or its promise
    resolved, or its promise rejected. *)
Definition tasks_inv (ins : list Input) (s : Sys) (h : list Event) : Prop :=
  taskBodies s ≡ₚ runningTasks (op s) ∧
  failedTasks (op s) = rejections ins ∧
  started h ≡ₚ runningTasks (op s) ++ resolutions ins ++ rejections ins.

(** [n <= c] and [n < c] of JavaScript, for a whole number [n] and a number
    [c]. *)
Definition at_most (n : nat) (c : Number) : Prop :=
  match c with
  | Finite q => (num n <= q)%Q
  | PosInfinity => True
  | NegInfinity => False
  | NaN => False
  end.
Definition below (n : nat) (c : Number) : Prop :=
  match c with
  | Finite q => (num n < q)%Q
  | PosInfinity => True
  | NegInfinity => False
  | NaN => False
  end.

(** The ceiling [d] is the ceiling [c] or a higher one. *)
Definition not_lower (c d : Number) : Prop :=
  match c, d with
  | Finite a, Finite b => (a <= b)%Q
  | _, _ => c = d
  end.

(** The running set is within the ceiling as the code tests it: at most
    [n] tasks run, for every whole number [n] at which the test
    [n >= ceiling] of L114 and L137 succeeds. *)
Definition within_ceiling (s : Sys) : Prop :=
  ∀ n, length_ge n (getMaxConcurrentTasks (op s)) = true →
       length (runningTasks (op s)) ≤ n.

(** What a run keeps true about the promises that [performAction]
    returned: there is one for each promise of L78, and it is pending or in
    the state of that promise. *)
Definition returned_inv (s : Sys) : Prop :=
  length (returned s) = length (handles s) ∧
  ∀ p st, returned s !! p = Some st →
          st = Pending ∨ handles s !! p = Some st.

(** What a run keeps true about completion: it happened with an empty queue
    and no running task, and it happened once if the promise is resolved and
    never if it is pending. *)
Definition completion_inv (s : Sys) (h : list Event) : Prop :=
  (∀ q r x, EvCompleted q r x ∈ h → q = 0 ∧ r = 0) ∧
  match _finishedPromise (op s) with
  | Pending => completions h = 0
  | Resolved _ => completions h = 1
  | Rejected => False
  end.

(** A state in which only the answer of a runner, or a new worker, can make
    anything happen to the promise of [waitUntilFinished]: that promise is
    pending, the provider field is [null], no task body is pending, and the
    only continuations are workers inside their runner and completion
    handlers about to return. *)
Definition stalled_thread (t : Thread) : bool :=
  match t with
  | InRunner _ _ | InEnqueueTasks FromTaskHandler => true
  | _ => false
  end.
Definition stalled (s : Sys) : Prop :=
  _finishedPromise (op s) = Pending ∧
  taskProvider (op s) = false ∧
  taskBodies s = [] ∧
  Forall (λ t, stalled_thread t = true) (threads s).
(** The inputs that come from a worker. *)
Definition from_worker (i : Input) : bool :=
  match i with
  | RegisterWorker _ | RunnerReturns _ _ _ | RunnerThrows _ _ => true
  | _ => false
  end.

(** What a run keeps true about the promises of [performAction]: the
    [resolve] function of a promise is held in at most one place, and a
    promise whose [resolve] function is held is pending. *)
Definition handles_inv (s : Sys) : Prop :=
  NoDup (held s) ∧ ∀ p, p ∈ held s → handles s !! p = Some Pending.

(** A pending promise of [performAction] whose [resolve] function nobody
    holds any more. *)
Definition abandoned (p : PromiseId) (s : Sys) : Prop :=
  handles s !! p = Some Pending ∧ p ∉ held s.

(** ** Scenarios *)

(** The state and the history a list of inputs leads to, from a fresh
    [Operation]. *)
Definition outcome (ceiling : option Number) (ins : list Input) : Sys * list Event :=
  default (new_Operation ceiling, []) (exec ins (new_Operation ceiling)).

Definition final (ceiling : option Number) (ins : list Input) : Sys :=
  (outcome ceiling ins).1.
Definition history (ceiling : option Number) (ins : list Input) : list Event :=
  (outcome ceiling ins).2.

(** One worker and no configured ceiling; the provider yields task 7, which
    submits one action with payload 5 and resolves; the runner answers 10;
    the provider then yields nothing. *)
Definition one_task_one_action : list Input :=
  [ RegisterWorker 0;
    ProviderReturns (FromGetNextAction 0) (Some 7);
    Submit 5;
    Tick (InEnqueueTasks (FromGetNextAction 0));
    Tick (InGetNextAction 0);
    Tick (InDistributeAction 0 (Got (mkWrapped 5 0)));
    RunnerReturns 0 (mkWrapped 5 0) (Some 10);
    Settle 7 true;
    ProviderReturns FromTaskHandler None;
    Tick (InEnqueueTasks FromTaskHandler);
    Tick (InWorkerRun 0 Succeeded);
    Tick (InGetNextAction 0);
    Tick (InDistributeAction 0 NoActions);
    Tick (InWorkerRun 0 NoMoreActions) ].

(** One worker, ceiling 1.  The provider yields task 7, which submits
    nothing and resolves while the worker is between the [break] on L116 and
    the [shift] on L91; the handler of the task asks the provider again
    (L148), and the worker, resumed, finds nothing queued and nothing
    running. *)
Definition completion_race : list Input :=
  [ RegisterWorker 0;
    ProviderReturns (FromGetNextAction 0) (Some 7);
    Tick (InEnqueueTasks (FromGetNextAction 0));
    Settle 7 true;
    Tick (InGetNextAction 0) ].

(** The same with ceiling 0: nothing is ever asked of the provider. *)
Definition completion_ceiling_zero : list Input :=
  [ RegisterWorker 0; Tick (InGetNextAction 0) ].

(** One worker, no configured ceiling.  Task 7 submits an action and
    resolves without waiting for it; the worker has taken the action and its
    runner has not answered yet when the provider, asked by the handler of
    the task, yields nothing. *)
Definition completion_stall : list Input :=
  [ RegisterWorker 0;
    ProviderReturns (FromGetNextAction 0) (Some 7);
    Submit 5;
    Tick (InEnqueueTasks (FromGetNextAction 0));
    Tick (InGetNextAction 0);
    Tick (InDistributeAction 0 (Got (mkWrapped 5 0)));
    Settle 7 true;
    ProviderReturns FromTaskHandler None ].

(** Two workers and a provider that has nothing: both workers reach L107. *)
Definition two_workers_empty_supply : list Input :=
  [ RegisterWorker 0;
    RegisterWorker 1;
    ProviderReturns (FromGetNextAction 0) None;
    ProviderReturns (FromGetNextAction 1) None;
    Tick (InEnqueueTasks (FromGetNextAction 0));
    Tick (InEnqueueTasks (FromGetNextAction 1));
    Tick (InGetNextAction 0);
    Tick (InGetNextAction 1) ].

(** One worker, no configured ceiling; the provider yields tasks 7 and 8;
    7 resolves and 8 rejects, neither submits an action. *)
Definition one_resolves_one_rejects : list Input :=
  [ RegisterWorker 0;
    ProviderReturns (FromGetNextAction 0) (Some 7);
    Tick (InEnqueueTasks (FromGetNextAction 0));
    ProviderReturns (FromGetNextAction 0) (Some 8);
    Settle 7 true;
    Settle 8 false ].

(** As [one_task_one_action] up to the runner, which rejects; the worker
    pulls again while task 7, still waiting for its action, submits
    another one, which the runner answers with 12. *)
Definition runner_rejects_before : list Input :=
  [ RegisterWorker 0;
    ProviderReturns (FromGetNextAction 0) (Some 7);
    Submit 5;
    Tick (InEnqueueTasks (FromGetNextAction 0));
    Tick (InGetNextAction 0);
    Tick (InDistributeAction 0 (Got (mkWrapped 5 0))) ].
Definition runner_rejects_after : list Input :=
  [ Submit 6;
    Tick (InWorkerRun 0 Failed);
    Tick (InGetNextAction 0);
    Tick (InDistributeAction 0 (Got (mkWrapped 6 1)));
    RunnerReturns 0 (mkWrapped 6 1) (Some 12) ].
Definition rejection : Sys * list Event :=
  default (new_Operation None, [])
    (step (RunnerReturns 0 (mkWrapped 5 0) None)
          (final None runner_rejects_before)).
Definition after_rejection : Sys * list Event :=
  default (new_Operation None, []) (exec runner_rejects_after rejection.1).

(** One worker, ceiling 1; the provider yields task 7, which neither
    submits nor settles; the worker reaches the wait on L98. *)
Definition first_wait : list Input :=
  [ RegisterWorker 0;
    ProviderReturns (FromGetNextAction 0) (Some 7);
    Tick (InEnqueueTasks (FromGetNextAction 0));
    Tick (InGetNextAction 0) ].

(** Then the worker is resumed, although nothing called [notifyAll]. *)
Definition first_wait_released : list Input :=
  first_wait ++ [ Tick (InGetNextActionWait 0 None) ].

(** As [completion_race]; then the worker is told that there are no more
    actions and its loop ends, and the provider answers the query of the
    handler with task 8. *)
Definition completion_race_goes_on : list Input :=
  completion_race
  ++ [ Tick (InDistributeAction 0 NoActions);
       Tick (InWorkerRun 0 NoMoreActions);
       ProviderReturns FromTaskHandler (Some 8) ].

(** One worker, ceiling 1.5 or NaN; the provider yields tasks 7 and 8,
    which neither submit nor settle. *)
Definition two_tasks_started : list Input :=
  [ RegisterWorker 0;
    ProviderReturns (FromGetNextAction 0) (Some 7);
    Tick (InEnqueueTasks (FromGetNextAction 0));
    ProviderReturns (FromGetNextAction 0) (Some 8) ].

(** One worker, ceiling 1: task 7 is running and fills the ceiling. *)
Definition one_task_started : list Input :=
  [ RegisterWorker 0;
    ProviderReturns (FromGetNextAction 0) (Some 7) ].

(** One worker, no configured ceiling, the list-backed provider over [[7]]:
    the worker asks a second time while task 7 runs, and the array is empty
    by then; task 7 resolves and its handler asks a third time before the
    second answer has been dealt with. *)
Definition asked_after_the_last_task : list Input :=
  [ RegisterWorker 0;
    ProviderReturns (FromGetNextAction 0) (Some 7);
    Tick (InEnqueueTasks (FromGetNextAction 0));
    Settle 7 true;
    ProviderReturns (FromGetNextAction 0) None;
    ProviderReturns FromTaskHandler None ].

(** Two workers, no configured ceiling; tasks 7 and 8 run and submit three
    actions between them; worker 1, registered last, pulls first. *)
Definition three_actions_two_workers : list Input :=
  [ RegisterWorker 0;
    ProviderReturns (FromGetNextAction 0) (Some 7);
    Tick (InEnqueueTasks (FromGetNextAction 0));
    ProviderReturns (FromGetNextAction 0) (Some 8);
    Submit 5;
    Submit 6;
    Submit 9;
    Tick (InEnqueueTasks (FromGetNextAction 0));
    RegisterWorker 1;
    Tick (InGetNextAction 1) ].
(** Then worker 0 pulls. *)
Definition next_pull : Sys * list Event :=
  default (new_Operation None, [])
    (step (Tick (InGetNextAction 0)) (final None three_actions_two_workers)).

(** ** The list-backed provider and further readings of a run *)

(** L199-204: one call of the provider that [taskProviderFromList] returns,
    on the array it closes over: the answer ([None] when [shift] finds the
    array empty) and the array after the call. *)
Definition taskProviderFromList (tasks : list Task) : option Task * list Task :=
  match tasks with
  | [] => (None, [])
  | t :: rest => (Some t, rest)
  end.

(** [n] successive calls: the answers in order, and the array left. *)
Fixpoint provider_calls (n : nat) (tasks : list Task)
    : list (option Task) * list Task :=
  match n with
  | 0 => ([], tasks)
  | S n =>
      let '(r, tasks1) := taskProviderFromList tasks in
      let '(rs, tasks2) := provider_calls n tasks1 in
      (r :: rs, tasks2)
  end.

(** The answers of the provider that a list of inputs delivers, in the
    order of delivery, and the tasks among them. *)
Definition answers (ins : list Input) : list (option Task) :=
  omap (λ i, match i with ProviderReturns _ r => Some r | _ => None end) ins.
Definition obtained (ins : list Input) : list Task :=
  omap (λ i, match i with ProviderReturns _ r => r | _ => None end) ins.

(** The inputs of a run whose provider is the list-backed one over [tasks]:
    the answers delivered are those of as many successive calls. *)
Definition list_backed (tasks : list Task) (ins : list Input) : Prop :=
  answers ins = (provider_calls (length (answers ins)) tasks).1.

Definition no_task (r : option Task) : bool :=
  match r with None => true | Some _ => false end.

Definition is_register (i : Input) : bool :=
  match i with RegisterWorker _ => true | _ => false end.

(** Counting continuations of a kind. *)
Fixpoint tally (f : Thread → bool) (ts : list Thread) : nat :=
  match ts with
  | [] => 0
  | t :: ts => (if f t then 1 else 0) + tally f ts
  end.

(** A [startPendingTasks] suspended on L138. *)
Definition is_starter (t : Thread) : bool :=
  match t with InStartPendingTasks _ => true | _ => false end.

(** A continuation that belongs to the [run] loop of worker [w]: the loop
    itself or a call it awaits. *)
Definition loop_of (w : WorkerId) (t : Thread) : bool :=
  match t with
  | InStartNewTask (FromGetNextAction w')
  | InEnqueueTasks (FromGetNextAction w')
  | InGetNextAction w'
  | InGetNextActionWait w' _
  | InDistributeAction w' _
  | InRunner w' _
  | InWorkerRun w' _ => bool_decide (w' = w)
  | _ => false
  end.

(** Worker [w] is inside its runner (L69). *)
Definition running_action_of (w : WorkerId) (t : Thread) : bool :=
  match t with
  | InRunner w' _ => bool_decide (w' = w)
  | _ => false
  end.

(** A continuation that holds a dequeued action: it is about to call the
    runner, or inside it. *)
Definition holds_action (t : Thread) : bool :=
  match t with
  | InDistributeAction _ (Got _) | InRunner _ _ => true
  | _ => false
  end.

(** A continuation that carries "no more actions" back to its worker. *)
Definition leaving (t : Thread) : bool :=
  match t with
  | InDistributeAction _ NoActions | InWorkerRun _ NoMoreActions => true
  | _ => false
  end.

(** The promise a continuation waits for at the gate, if it waits there. *)
Definition gate_wait (t : Thread) : option (option PromiseId) :=
  match t with
  | InGetNextActionWait _ p | InStartPendingTasks p => Some p
  | _ => None
  end.

(** The inputs whose code calls [notifyAll] (L83, L147, L154). *)
Definition notifies (i : Input) : bool :=
  match i with
  | Submit _ | Settle _ _ => true
  | _ => false
  end.

Definition outcomes (r : ActionDistributorResult) (h : list Event) : nat :=
  length (omap (λ e, match e with
                     | EvOutcome _ r' => if decide (r' = r) then Some () else None
                     | _ => None
                     end) h).
(** How many times, in the inputs of a run, a runner threw before it
    returned a promise (L69). *)
Definition thrown (ins : list Input) : nat :=
  length (omap (λ i, match i with RunnerThrows _ _ => Some () | _ => None end) ins).
Definition calls (h : list Event) : nat :=
  length (omap (λ e, match e with EvProviderCall _ _ _ => Some () | _ => None end) h).

Definition is_resolved {V} (p : PromiseState V) : bool :=
  match p with Resolved _ => true | _ => false end.
Definition is_pending {V} (p : PromiseState V) : bool :=
  match p with Pending => true | _ => false end.

(** How many promises of [performAction] are resolved. *)
Fixpoint count_resolved (l : list (PromiseState Result)) : nat :=
  match l with
  | [] => 0
  | p :: l => (if is_resolved p then 1 else 0) + count_resolved l
  end.

(** Nothing is going on: no continuation is suspended, no task body is
    pending and the promise of [waitUntilFinished] is pending. *)
Definition idle (s : Sys) : Prop :=
  threads s = [] ∧ taskBodies s = [] ∧ _finishedPromise (op s) = Pending.

(** What a run keeps true about the gate: the two fields go together, and
    every promise made by [waitForNotify] is resolved, except the installed
    one, which is the last made and is pending. *)
Definition gate_inv (s : Sys) : Prop :=
  _notifyResolve (op s) = _notifyPromise (op s) ∧
  match _notifyPromise (op s) with
  | Some p =>
      notifyPromises s = replicate p (Resolved ()) ++ [Pending]
  | None =>
      notifyPromises s = replicate (length (notifyPromises s)) (Resolved ())
  end ∧
  Forall (λ t, ∀ p, gate_wait t = Some (Some p) → p < length (notifyPromises s))
         (threads s).

(** What a run keeps true about leaving workers: as long as the promise of
    [waitUntilFinished] is pending no worker has been told, or is about to
    be told, that there are no more actions. *)
Definition leaving_inv (s : Sys) (h : list Event) : Prop :=
  match _finishedPromise (op s) with
  | Pending => tally leaving (threads s) = 0 ∧ outcomes NoMoreActions h = 0
  | Resolved _ => True
  | Rejected => False
  end.

(** ** Further scenarios *)

(** Two workers, ceiling 1, and the list-backed provider over [[7; 8]]:
    task 8 is obtained while task 7 is running and waits for a slot; 7
    resolves, its handler asks the provider, which has nothing left. *)
Definition two_tasks_ceiling_one : list Input :=
  [ RegisterWorker 0;
    RegisterWorker 1;
    ProviderReturns (FromGetNextAction 0) (Some 7);
    ProviderReturns (FromGetNextAction 1) (Some 8);
    Settle 7 true;
    ProviderReturns FromTaskHandler None ].

(** Two submissions and nothing else. *)
Definition submissions_only : list Input := [ Submit 5; Submit 6 ].

(** The worker of [first_wait_released] is blocked at the gate; then a task
    body submits an action. *)
Definition released_by_submit : Sys * list Event :=
  default (new_Operation None, [])
    (step (Submit 5) (final (Some (whole 1)) first_wait_released)).

(** As [runner_rejects_before], but the runner resolves with 10; then the
    task submits a second action, which the worker takes and whose runner
    rejects. *)
Definition runner_resolves : Sys * list Event :=
  default (new_Operation None, [])
    (step (RunnerReturns 0 (mkWrapped 5 0) (Some 10))
          (final None runner_rejects_before)).
Definition runner_resolves_after : list Input :=
  [ Submit 6;
    Tick (InWorkerRun 0 Succeeded);
    Tick (InGetNextAction 0);
    Tick (InDistributeAction 0 (Got (mkWrapped 6 1)));
    RunnerReturns 0 (mkWrapped 6 1) None ].
Definition after_runner_resolves : Sys * list Event :=
  default (new_Operation None, []) (exec runner_resolves_after runner_resolves.1).

(** The same, and then the promise of the async function [performAction]
    takes the value of the promise made on L78. *)
Definition runner_resolves_adopted : list Input :=
  runner_resolves_after ++ [Adopt 0].
Definition after_adoption : Sys * list Event :=
  default (new_Operation None, []) (exec runner_resolves_adopted runner_resolves.1).

(** The two together, as one run: a first action that succeeds and a
    second that fails. *)
Definition one_success_one_failure : list Input :=
  runner_rejects_before
  ++ [ RunnerReturns 0 (mkWrapped 5 0) (Some 10) ]
  ++ runner_resolves_after.

(** One worker, one task that submits action 5; the runner of the worker
    throws before it returns a promise. *)
Definition runner_throws : list Input :=
  [RegisterWorker 0; ProviderReturns (FromGetNextAction 0) (Some 7);
   Submit 5; Tick (InEnqueueTasks (FromGetNextAction 0));
   Tick (InGetNextAction 0); RunnerThrows 0 (mkWrapped 5 0)].
(** ** Proof tools *)

Ltac unfold_M :=
  unfold perform, registerWorker, performAction, taskSettled,
    startNewTask_resume, runner_settled, resume, run_resume,
    distributeAction_resume, distributeAction, getNextAction_resume,
    getNextAction, takeAction, enqueueTasksIfNeeded_resume,
    enqueueTasksIfNeeded, startNewTask, startPendingTasks, finishedResolve,
    waitForNotify, notifyAll, adopt, this, emit, modify, get in *;
  unfold mbind, M_bind, mret, M_ret in *.

(** Case analysis of one transition, down to the straight-line paths of the
    source between two suspension points. *)
Ltac break_step H :=
  match type of H with
  | step ?i ?s = Some _ =>
      destruct s as [[] ? ? ? ? ?]; try (is_var i; destruct i); simpl in H;
      repeat (simplify_option_eq; try case_match);
      unfold_M; simpl in *; simplify_eq; simpl in *;
      repeat (case_match; simpl in *; simplify_eq; simpl in *)
  end.

Lemma num_add n m : (num (n + m) == num n + num m)%Q.
Proof. unfold num. by rewrite Nat2Z.inj_add, inject_Z_plus. Qed.

Lemma num_le n m : n ≤ m ↔ (num n <= num m)%Q.
Proof. unfold num. rewrite <-Zle_Qle. lia. Qed.

Lemma num_lt n m : n < m ↔ (num n < num m)%Q.
Proof. unfold num. rewrite <-Zlt_Qlt. lia. Qed.

(** The test [n >= c] of L114 and L137: once it succeeds it succeeds for
    every longer array, and it succeeds for a lower ceiling if it does for
    a higher one. *)
Lemma length_ge_mono n m c :
  n ≤ m → length_ge n c = true → length_ge m c = true.
Proof.
  unfold length_ge. destruct c as [q| | |]; try done.
  rewrite !Qle_bool_iff. intros Hle%num_le H. by eapply Qle_trans.
Qed.

Lemma length_ge_not_lower n c d :
  not_lower c d → length_ge n d = true → length_ge n c = true.
Proof.
  unfold length_ge, not_lower.
  destruct c as [a| | |], d as [b| | |]; try done.
  rewrite !Qle_bool_iff. intros Hle H. by eapply Qle_trans.
Qed.

Lemma length_ge_whole n : length_ge n (whole n) = true.
Proof. unfold length_ge, whole. apply Qle_bool_iff, Qle_refl. Qed.

(** When the test fails the array is shorter than the ceiling, unless the
    ceiling is NaN. *)
Lemma length_ge_false n c : length_ge n c = false → c ≠ NaN → below n c.
Proof.
  unfold length_ge, below. destruct c as [q| | |]; try done.
  intros H _. apply Qnot_le_lt. rewrite <-Qle_bool_iff. congruence.
Qed.

Lemma not_lower_refl c : not_lower c c.
Proof. destruct c; simpl; try done. apply Qle_refl. Qed.

Lemma not_lower_trans c d e : not_lower c d → not_lower d e → not_lower c e.
Proof.
  unfold not_lower.
  destruct c as [a| | |], d as [b| | |], e as [x| | |]; try done.
  apply Qle_trans.
Qed.

(** The tests of the source, as propositions. *)
Ltac tests :=
  repeat match goal with
    | H : _ && _ = true |- _ => apply andb_prop in H as [??]
    | H : negb _ = true |- _ => apply negb_true_iff in H
    | H : negb _ = false |- _ => apply negb_false_iff in H
    | H : (_ =? _) = true |- _ => apply Nat.eqb_eq in H
    | H : (_ =? _) = false |- _ => apply Nat.eqb_neq in H
    | H : (_ <=? _) = true |- _ => apply Nat.leb_le in H
    | H : (_ <=? _) = false |- _ => apply Nat.leb_gt in H
    end.

(** Membership in a history that is written out. *)
Ltac in_events H :=
  repeat (apply elem_of_cons in H as [H|H]; simplify_eq);
  try (by apply elem_of_nil in H).

Lemma exec_app ins1 ins2 s s1 e1 s2 e2 :
  exec ins1 s = Some (s1, e1) →
  exec ins2 s1 = Some (s2, e2) →
  exec (ins1 ++ ins2) s = Some (s2, e1 ++ e2).
Proof.
  revert s e1. induction ins1 as [|i ins1 IH]; simpl; intros s e1 H1 H2.
  - by simplify_eq.
  - destruct (step i s) as [[sa ea]|] eqn:Hs; simpl in *; [|done].
    destruct (exec ins1 sa) as [[sb eb]|] eqn:Hb; simpl in *; [|done].
    simplify_eq. rewrite (IH _ _ Hb H2). simpl. by rewrite app_assoc.
Qed.

(** Induction along a run: a property of a state and the history that led
    to it, kept by every transition, is kept by every run. *)
Lemma exec_ind (P : Sys → list Event → Prop) :
  (∀ i s h s' e, P s h → step i s = Some (s', e) → P s' (h ++ e)) →
  ∀ ins s h s' e, P s h → exec ins s = Some (s', e) → P s' (h ++ e).
Proof.
  intros Hstep ins. induction ins as [|i ins IH]; simpl; intros s h s' e HP H.
  - simplify_eq. by rewrite app_nil_r.
  - destruct (step i s) as [[sa ea]|] eqn:Hs; simpl in *; [|done].
    destruct (exec ins sa) as [[sb eb]|] eqn:Hb; simpl in *; [|done].
    simplify_eq. rewrite app_assoc. eapply IH; [|done]. by eapply Hstep.
Qed.

Lemma runs_ind (P : Sys → list Event → Prop) :
  (∀ c, P (new_Operation c) []) →
  (∀ i s h s' e, P s h → step i s = Some (s', e) → P s' (h ++ e)) →
  ∀ c ins s h, runs c ins s h → P s h.
Proof.
  intros H0 Hstep c ins s h Hr.
  change h with ([] ++ h). eapply exec_ind; [apply Hstep|apply H0|apply Hr].
Qed.

(** Induction along a run, with the inputs that led to a state. *)
Lemma exec_ind_inputs (P : list Input → Sys → list Event → Prop) :
  (∀ i past s h s' e,
     P past s h → step i s = Some (s', e) → P (past ++ [i]) s' (h ++ e)) →
  ∀ ins past s h s' e,
    P past s h → exec ins s = Some (s', e) → P (past ++ ins) s' (h ++ e).
Proof.
  intros Hstep ins. induction ins as [|i ins IH]; simpl;
    intros past s h s' e HP H.
  - simplify_eq. by rewrite !app_nil_r.
  - destruct (step i s) as [[sa ea]|] eqn:Hs; simpl in *; [|done].
    destruct (exec ins sa) as [[sb eb]|] eqn:Hb; simpl in *; [|done].
    simplify_eq. rewrite app_assoc, (cons_middle i past ins), app_assoc.
    eapply IH; [|done]. by eapply Hstep.
Qed.

Lemma runs_ind_inputs (P : list Input → Sys → list Event → Prop) :
  (∀ c, P [] (new_Operation c) []) →
  (∀ i past s h s' e,
     P past s h → step i s = Some (s', e) → P (past ++ [i]) s' (h ++ e)) →
  ∀ c ins s h, runs c ins s h → P ins s h.
Proof.
  intros H0 Hstep c ins s h Hr.
  change ins with ([] ++ ins). change h with ([] ++ h).
  eapply exec_ind_inputs; [apply Hstep|apply H0|apply Hr].
Qed.

Lemma pluck_Permutation `{EqDecision X} (x : X) l rest :
  pluck x l = Some rest → l ≡ₚ x :: rest.
Proof.
  revert rest. induction l as [|y l IH]; simpl; intros rest H; [done|].
  case_decide; simplify_eq; [done|].
  destruct (pluck x l) as [r|]; simplify_eq/=.
  rewrite (IH r eq_refl). apply Permutation_swap.
Qed.

Lemma indexOf_lookup t l i : indexOf t l = Some i → l !! i = Some t.
Proof.
  revert i. induction l as [|x l IH]; simpl; intros i H; [done|].
  case_decide; simplify_eq; [done|].
  destruct (indexOf t l); simplify_eq/=. by apply IH.
Qed.

Lemma indexOf_None t l : indexOf t l = None → t ∉ l.
Proof.
  induction l as [|x l IH]; simpl; intros H; [apply not_elem_of_nil|].
  case_decide; simplify_eq.
  destruct (indexOf t l); simplify_eq/=.
  apply not_elem_of_cons; auto.
Qed.

Lemma removeRunning_length t l : length (removeRunning t l) ≤ length l.
Proof.
  unfold removeRunning. destruct (indexOf t l) as [i|] eqn:Hi; [|done].
  apply indexOf_lookup in Hi. rewrite length_delete; [lia|eauto].
Qed.

Lemma removeRunning_Permutation t l :
  t ∈ l → l ≡ₚ t :: removeRunning t l.
Proof.
  intros Hin. unfold removeRunning.
  destruct (indexOf t l) as [i|] eqn:Hi.
  - apply delete_Permutation, indexOf_lookup, Hi.
  - by apply indexOf_None in Hi.
Qed.
(** ** The concurrency ceiling *)

Section ceiling.

Lemma getMaxConcurrentTasks_default o :
  maxConcurrentTasks o = None →
  getMaxConcurrentTasks o = whole (3 * length (workers o)).
Proof. unfold getMaxConcurrentTasks. intros ->. by rewrite Nat.mul_comm. Qed.

(** No transition lowers the ceiling, and none changes how it is
    configured. *)
Lemma step_ceiling_mono i s s' e :
  step i s = Some (s', e) →
  maxConcurrentTasks (op s') = maxConcurrentTasks (op s) ∧
  not_lower (getMaxConcurrentTasks (op s)) (getMaxConcurrentTasks (op s')).
Proof.
  intros H. break_step H; unfold getMaxConcurrentTasks; simpl;
    (split; [done|]); try apply not_lower_refl.
  all: case_match; try apply not_lower_refl.
  all: apply num_le; rewrite ?length_app; simpl; lia.
Qed.

(** A transition takes tasks out of the running set, or leaves it as it
    is, or adds one task to it right after the test of L137 failed. *)
Lemma step_running i s s' e :
  step i s = Some (s', e) →
  length (runningTasks (op s')) ≤ length (runningTasks (op s)) ∨
  (length (runningTasks (op s')) = S (length (runningTasks (op s))) ∧
   length_ge (length (runningTasks (op s))) (getMaxConcurrentTasks (op s))
   = false).
Proof.
  intros H. break_step H; unfold getMaxConcurrentTasks in *; simpl in *.
  all: try match goal with
    | |- context [removeRunning ?t ?l] =>
        pose proof (removeRunning_length t l)
    end.
  all: rewrite ?length_app; simpl; try (left; lia).
  all: right; split; [lia|done].
Qed.

Lemma step_running_bound i s s' e :
  within_ceiling s → step i s = Some (s', e) → within_ceiling s'.
Proof.
  unfold within_ceiling. intros Hinv H n Hn.
  destruct (step_ceiling_mono _ _ _ _ H) as [_ Hmono].
  apply (length_ge_not_lower _ _ _ Hmono) in Hn.
  destruct (step_running _ _ _ _ H) as [Hle|[Hlen Htest]].
  - specialize (Hinv n Hn). lia.
  - destruct (decide (n ≤ length (runningTasks (op s)))) as [Hsmall|Hbig];
      [|lia].
    rewrite (length_ge_mono _ _ _ Hsmall Hn) in Htest. done.
Qed.

Lemma runs_within_ceiling ceiling ins s h :
  runs ceiling ins s h → within_ceiling s.
Proof.
  intros Hr.
  apply (exec_ind (λ s1 _, within_ceiling s1)) with (h := []) in Hr.
  - done.
  - intros i sa _ sb e. apply step_running_bound.
  - intros n _. simpl. lia.
Qed.

Lemma runs_not_configured ins s h :
  runs None ins s h → maxConcurrentTasks (op s) = None.
Proof.
  intros Hr.
  apply (exec_ind (λ s1 _, maxConcurrentTasks (op s1) = None))
    with (h := []) in Hr; [done| |done].
  intros i sa _ sb e IH Hstep.
  apply step_ceiling_mono in Hstep as [-> _]. done.
Qed.

End ceiling.

(** C5, as the code has it: the ceiling is any JavaScript number, and the
    tests on L114 and L137 compare the number of running tasks, a whole
    number, with it.  At every state of every run at most [n] tasks run,
    for every whole number [n] that passes the test [n >= ceiling].  So
    fewer than [ceiling + 1] tasks run when the ceiling is a finite number
    that is not negative, and at most [ceiling] tasks run when the ceiling
    is a whole number, which the derived ceiling always is. *)
Theorem C5_running_tasks_within_ceiling ceiling ins s h :
  runs ceiling ins s h →
  (∀ n, length_ge n (getMaxConcurrentTasks (op s)) = true →
        length (runningTasks (op s)) ≤ n) ∧
  (∀ q, getMaxConcurrentTasks (op s) = Finite q → (0 <= q)%Q →
        (num (length (runningTasks (op s))) < q + 1)%Q) ∧
  (∀ n, getMaxConcurrentTasks (op s) = whole n →
        at_most (length (runningTasks (op s)))
          (getMaxConcurrentTasks (op s))) ∧
  (ceiling = None →
   at_most (length (runningTasks (op s))) (getMaxConcurrentTasks (op s)) ∧
   length (runningTasks (op s)) ≤ 3 * length (workers (op s))).
Proof.
  intros Hr. pose proof (runs_within_ceiling _ _ _ _ Hr) as Hinv.
  unfold within_ceiling in Hinv.
  assert (∀ n, getMaxConcurrentTasks (op s) = whole n →
               length (runningTasks (op s)) ≤ n) as Hwhole.
  { intros n Hn. apply Hinv. rewrite Hn. apply length_ge_whole. }
  split; [done|]. split; [|split].
  - intros q Hq Hpos.
    pose proof (Qle_ceiling q) as Hup. pose proof (Qceiling_lt q) as Hlow.
    assert (0 ≤ Qceiling q)%Z as Hz.
    { rewrite Zle_Qle. eapply Qle_trans; [exact Hpos|exact Hup]. }
    assert (length (runningTasks (op s)) ≤ Z.to_nat (Qceiling q)) as Hle.
    { apply Hinv. rewrite Hq. unfold length_ge, num.
      rewrite Z2Nat.id by done. by apply Qle_bool_iff. }
    apply num_le in Hle. unfold num in Hle at 2.
    rewrite Z2Nat.id in Hle by done.
    unfold Z.sub in Hlow. rewrite inject_Z_plus in Hlow.
    change (inject_Z (- (1))) with (-1)%Q in Hlow.
    generalize dependent (inject_Z (Qceiling q)).
    generalize (num (length (runningTasks (op s)))). intros; lra.
  - intros n Hn. rewrite Hn. simpl. apply num_le. by apply Hwhole.
  - intros ->. pose proof (runs_not_configured _ _ _ Hr) as Hnone.
    apply getMaxConcurrentTasks_default in Hnone.
    pose proof (Hwhole _ Hnone) as Hle.
    split; [|done]. rewrite Hnone. simpl. by apply num_le.
Qed.

Lemma C5_witness :
  (∀ n, length_ge n (getMaxConcurrentTasks
                       (op (final (Some (whole 1)) one_task_started))) = true →
        length (runningTasks (op (final (Some (whole 1)) one_task_started)))
        ≤ n) ∧
  (∀ q, getMaxConcurrentTasks (op (final (Some (whole 1)) one_task_started))
        = Finite q → (0 <= q)%Q →
        (num (length (runningTasks
                        (op (final (Some (whole 1)) one_task_started))))
         < q + 1)%Q) ∧
  (∀ n, getMaxConcurrentTasks (op (final (Some (whole 1)) one_task_started))
        = whole n →
        at_most
          (length (runningTasks (op (final (Some (whole 1)) one_task_started))))
          (getMaxConcurrentTasks
             (op (final (Some (whole 1)) one_task_started)))) ∧
  (Some (whole 1) = None →
   at_most
     (length (runningTasks (op (final (Some (whole 1)) one_task_started))))
     (getMaxConcurrentTasks (op (final (Some (whole 1)) one_task_started))) ∧
   length (runningTasks (op (final (Some (whole 1)) one_task_started)))
   ≤ 3 * length (workers (op (final (Some (whole 1)) one_task_started)))).
Proof.
  apply (C5_running_tasks_within_ceiling (Some (whole 1)) one_task_started
           (final (Some (whole 1)) one_task_started)
           (history (Some (whole 1)) one_task_started)).
  vm_compute. reflexivity.
Defined.

(** In that run one task is running and the ceiling is 1. *)
Example one_task_at_ceiling_one :
  runningTasks (op (final (Some (whole 1)) one_task_started)) = [7] ∧
  getMaxConcurrentTasks (op (final (Some (whole 1)) one_task_started))
  = whole 1.
Proof. vm_compute. done. Qed.

(** C5 as stated fails.  With ceiling 1.5 the test [1 >= 1.5] on L137 is
    false and a second task is started: two tasks run, more than the
    ceiling.  With ceiling NaN every test is false and nothing bounds the
    running set.  With ceiling -1 the running set, empty, is above the
    ceiling from the start. *)
Lemma C5_counterexample :
  (runs (Some (Finite (3 # 2))) two_tasks_started
     (final (Some (Finite (3 # 2))) two_tasks_started)
     (history (Some (Finite (3 # 2))) two_tasks_started) ∧
   runningTasks (op (final (Some (Finite (3 # 2))) two_tasks_started))
   = [7; 8] ∧
   getMaxConcurrentTasks (op (final (Some (Finite (3 # 2))) two_tasks_started))
   = Finite (3 # 2) ∧
   ¬ at_most
       (length (runningTasks
                  (op (final (Some (Finite (3 # 2))) two_tasks_started))))
       (getMaxConcurrentTasks
          (op (final (Some (Finite (3 # 2))) two_tasks_started)))) ∧
  (runs (Some NaN) two_tasks_started
     (final (Some NaN) two_tasks_started)
     (history (Some NaN) two_tasks_started) ∧
   runningTasks (op (final (Some NaN) two_tasks_started)) = [7; 8] ∧
   ¬ at_most
       (length (runningTasks (op (final (Some NaN) two_tasks_started))))
       (getMaxConcurrentTasks (op (final (Some NaN) two_tasks_started)))) ∧
  (runs (Some (Finite (-1))) [] (new_Operation (Some (Finite (-1)))) [] ∧
   ¬ at_most
       (length (runningTasks (op (new_Operation (Some (Finite (-1)))))))
       (getMaxConcurrentTasks (op (new_Operation (Some (Finite (-1))))))).
Proof.
  split; [|split].
  - split; [vm_compute; reflexivity|].
    split; [vm_compute; reflexivity|].
    split; [vm_compute; reflexivity|].
    vm_compute. intros H. by apply H.
  - split; [vm_compute; reflexivity|].
    split; [vm_compute; reflexivity|].
    vm_compute. done.
  - split; [reflexivity|]. vm_compute. intros H. by apply H.
Qed.

(** C7: with no configured ceiling, [getMaxConcurrentTasks] is three times
    the number of workers registered when it is called: it grows by three
    with every [registerWorker], and it is 6 once two workers are
    registered. *)
Theorem C7_default_ceiling_follows_workers s w s' e :
  maxConcurrentTasks (op s) = None →
  step (RegisterWorker w) s = Some (s', e) →
  getMaxConcurrentTasks (op s) = whole (3 * length (workers (op s))) ∧
  workers (op s') = workers (op s) ++ [w] ∧
  getMaxConcurrentTasks (op s') = whole (3 * length (workers (op s)) + 3) ∧
  (length (workers (op s')) = 2 → getMaxConcurrentTasks (op s') = whole 6).
Proof.
  intros Hnone H.
  assert (Hw : workers (op s') = workers (op s) ++ [w]).
  { break_step H; done. }
  destruct (step_ceiling_mono _ _ _ _ H) as [Hcfg _].
  rewrite Hnone in Hcfg.
  rewrite !getMaxConcurrentTasks_default by done.
  rewrite Hw, length_app. change (length [w]) with 1. repeat split.
  - f_equal. lia.
  - intros Hlen. f_equal. lia.
Qed.

Lemma C7_witness :
  let s := fst (perform (registerWorker 0) (new_Operation None)) in
  let s' := fst (perform (registerWorker 1) s) in
  getMaxConcurrentTasks (op s) = whole (3 * length (workers (op s))) ∧
  workers (op s') = workers (op s) ++ [1] ∧
  getMaxConcurrentTasks (op s') = whole (3 * length (workers (op s)) + 3) ∧
  (length (workers (op s')) = 2 → getMaxConcurrentTasks (op s') = whole 6).
Proof.
  intros s s'.
  apply (C7_default_ceiling_follows_workers s 1 s'
           (snd (perform (registerWorker 1) s))); reflexivity.
Defined.

(** The scenario of the specification: a fresh operation without a
    configured ceiling has ceiling 0, and ceiling 6 after two workers
    registered. *)
Example default_ceiling_two_workers :
  getMaxConcurrentTasks (op (new_Operation None)) = whole 0 ∧
  ∃ s h, runs None [RegisterWorker 0; RegisterWorker 1] s h ∧
         getMaxConcurrentTasks (op s) = whole 6.
Proof. split; [reflexivity|]. eexists _, _. split; reflexivity. Qed.

(** ** Queries of the task provider *)

Section provider.

(** Every invocation within one transition sees an empty queue, and is
    made right after the test of L114 failed. *)
Lemma step_calls_guarded i s s' e q r c :
  step i s = Some (s', e) →
  EvProviderCall q r c ∈ e →
  q = 0 ∧ length_ge r c = false.
Proof.
  intros H Hin. break_step H; in_events Hin; tests;
    unfold getMaxConcurrentTasks in *; simpl in *; split; (lia || done).
Qed.

(** Once the provider field is [null], it stays so and the provider is
    not invoked. *)
Lemma step_exhausted_stable i s s' e :
  taskProvider (op s) = false →
  step i s = Some (s', e) →
  taskProvider (op s') = false ∧ Forall (λ ev, is_call ev = false) e.
Proof.
  intros Hp H. break_step H; simpl in *; simplify_eq; tests; simplify_eq;
    (split; [done|]); repeat constructor.
Qed.

(** The transition that learns of exhaustion sets the field to [null] and
    does nothing else that can be observed. *)
Lemma step_exhaustion i s s' e :
  step i s = Some (s', e) →
  EvExhausted ∈ e →
  taskProvider (op s') = false ∧ e = [EvExhausted].
Proof.
  intros H Hin. break_step H; in_events Hin; done.
Qed.

End provider.
(** C8, as the code has it: every invocation of the task provider, in
    every run, is made with the action queue empty and right after the test
    [running >= ceiling] of L114 failed; so with fewer running tasks than
    the ceiling, unless the ceiling is NaN. *)
Theorem C8_provider_invoked_only_when_idle ceiling ins s h q r c :
  runs ceiling ins s h →
  EvProviderCall q r c ∈ h →
  q = 0 ∧ length_ge r c = false ∧ (c ≠ NaN → below r c).
Proof.
  intros Hr Hin.
  assert (q = 0 ∧ length_ge r c = false) as [Hq Htest].
  { revert q r c Hin. revert ceiling ins s h Hr.
    apply (runs_ind (λ _ h, ∀ q r c, EvProviderCall q r c ∈ h →
                                     q = 0 ∧ length_ge r c = false)).
    - intros _ q r c Hin. by apply elem_of_nil in Hin.
    - intros i s h s' e IH Hstep q r c [Hin|Hin]%elem_of_app.
      + by apply IH.
      + by eapply step_calls_guarded. }
  split; [done|]. split; [done|]. by apply length_ge_false.
Qed.

Lemma C8_witness :
  EvProviderCall 0 0 (whole 3) ∈ history None one_task_one_action ∧
  0 = 0 ∧ length_ge 0 (whole 3) = false ∧ (whole 3 ≠ NaN → below 0 (whole 3)).
Proof.
  assert (EvProviderCall 0 0 (whole 3) ∈ history None one_task_one_action)
    as Hcall.
  { vm_compute. apply list_elem_of_here. }
  split; [exact Hcall|].
  apply (C8_provider_invoked_only_when_idle None one_task_one_action
           (final None one_task_one_action)
           (history None one_task_one_action) 0 0 (whole 3)); [|exact Hcall].
  vm_compute. reflexivity.
Defined.

(** C8 as stated fails when the configured ceiling is NaN: the test
    [running >= NaN] of L114 is false, so the provider is invoked, and the
    number of running tasks, 0 and then 1, is not below NaN. *)
Lemma C8_counterexample :
  runs (Some NaN) two_tasks_started
    (final (Some NaN) two_tasks_started) (history (Some NaN) two_tasks_started) ∧
  history (Some NaN) two_tasks_started
  = [EvProviderCall 0 0 NaN; EvTaskStart 7; EvProviderCall 0 1 NaN;
     EvTaskStart 8] ∧
  ¬ below 0 NaN ∧ ¬ below 1 NaN.
Proof. vm_compute. repeat split; try reflexivity; by intros []. Qed.

Section exhaustion.

Lemma exhaustion_inv_step i s h s' e :
  exhaustion_inv s h → step i s = Some (s', e) → exhaustion_inv s' (h ++ e).
Proof.
  intros [Hnull Hafter] Hstep. split.
  - intros [Hin|Hin]%elem_of_app.
    + by eapply step_exhausted_stable; [apply Hnull|].
    + by eapply step_exhaustion.
  - intros h1 h2 Heq.
    apply app_eq_inv in Heq as [(k & -> & Hk)|(k & -> & Hk)].
    + destruct k as [|ev k]; simpl in Hk; simplify_eq/=.
      * destruct (step_exhaustion _ _ _ _ Hstep) as [_ He];
          [apply list_elem_of_here|].
        simplify_eq. constructor.
      * apply Forall_app. split; [by eapply Hafter|].
        eapply step_exhausted_stable; [|done].
        apply Hnull, elem_of_app. right. apply list_elem_of_here.
    + destruct (step_exhaustion _ _ _ _ Hstep) as [_ He].
      { rewrite Hk. apply elem_of_app. right. apply list_elem_of_here. }
      rewrite He in Hk. destruct k as [|? [|]]; simplify_eq/=. constructor.
Qed.

Lemma runs_exhaustion_inv ceiling ins s h :
  runs ceiling ins s h → exhaustion_inv s h.
Proof.
  revert ceiling ins s h. apply runs_ind.
  - intros c. split.
    + intros Hin. by apply elem_of_nil in Hin.
    + intros [|] ? ?; simplify_eq/=.
  - apply exhaustion_inv_step.
Qed.

End exhaustion.

(** C9, as the code has it: in every run, nothing that happens after the
    answer "no task" has been received on L125-128 is an invocation of the
    provider; from then on the provider field is [null]. *)
Theorem C9_provider_never_invoked_after_exhaustion ceiling ins s h h1 h2 :
  runs ceiling ins s h →
  h = h1 ++ EvExhausted :: h2 →
  taskProvider (op s) = false ∧ ∀ q r c, EvProviderCall q r c ∉ h2.
Proof.
  intros Hr Heq. destruct (runs_exhaustion_inv _ _ _ _ Hr) as [Hnull Hafter].
  split.
  - apply Hnull. rewrite Heq. apply elem_of_app. right. apply list_elem_of_here.
  - intros q r c Hin. specialize (Hafter _ _ Heq).
    rewrite Forall_forall in Hafter. by apply Hafter in Hin.
Qed.

Lemma C9_witness :
  taskProvider (op (final None one_task_one_action)) = false ∧
  ∀ q r c, EvProviderCall q r c ∉ [EvCompleted 0 0 false; EvOutcome 0 NoMoreActions].
Proof.
  apply (C9_provider_never_invoked_after_exhaustion None one_task_one_action
           (final None one_task_one_action)
           (history None one_task_one_action)
           [EvProviderCall 0 0 (whole 3); EvTaskStart 7; EvSubmit (mkWrapped 5 0);
            EvDequeue (mkWrapped 5 0); EvOutcome 0 Succeeded; EvTaskResolve 7;
            EvProviderCall 0 0 (whole 3)]
           [EvCompleted 0 0 false; EvOutcome 0 NoMoreActions]);
    vm_compute; reflexivity.
Defined.

(** C9 as stated fails: the provider can be invoked after it has returned
    "no task", as long as that answer has not been dealt with.  In
    [asked_after_the_last_task] the provider is the list-backed one over
    [[7]]: its second call finds the array empty and returns "no task", and
    the handler of task 7 calls it a third time before the continuation of
    L125 has set the field to [null]. *)
Lemma C9_counterexample :
  runs None asked_after_the_last_task
    (final None asked_after_the_last_task)
    (history None asked_after_the_last_task) ∧
  list_backed [7] asked_after_the_last_task ∧
  provider_calls 3 [7] = ([Some 7; None; None], []) ∧
  history None asked_after_the_last_task
  = [EvProviderCall 0 0 (whole 3); EvTaskStart 7; EvProviderCall 0 1 (whole 3);
     EvTaskResolve 7; EvProviderCall 0 0 (whole 3); EvExhausted; EvExhausted].
Proof. vm_compute. done. Qed.

(** ** The action queue and the in-flight registry *)

Section queue.

(** One transition: what it dequeues is appended to [runningActions], and
    the queue loses at its head what is dequeued and gains at its tail what
    is submitted. *)
Lemma step_queue i s s' e :
  step i s = Some (s', e) →
  runningActions (op s') = runningActions (op s) ++ dequeued e ∧
  queuedActions (op s) ++ submitted e = dequeued e ++ queuedActions (op s').
Proof.
  intros H. break_step H; simpl; rewrite ?app_nil_r; done.
Qed.

Lemma exec_queue ins s s' h :
  exec ins s = Some (s', h) →
  runningActions (op s') = runningActions (op s) ++ dequeued h ∧
  queuedActions (op s) ++ submitted h = dequeued h ++ queuedActions (op s').
Proof.
  intros H.
  apply (exec_ind
           (λ s1 h1,
              runningActions (op s1) = runningActions (op s) ++ dequeued h1 ∧
              queuedActions (op s) ++ submitted h1
              = dequeued h1 ++ queuedActions (op s1))) with (h := []) in H.
  - done.
  - clear. intros i sa h sb e [IHr IHq] Hstep.
    destruct (step_queue _ _ _ _ Hstep) as [Hr Hq].
    unfold dequeued, submitted in *. rewrite !omap_app. split.
    + by rewrite Hr, IHr, app_assoc.
    + by rewrite app_assoc, IHq, <-!app_assoc, Hq.
  - simpl. by rewrite !app_nil_r.
Qed.

(** L91-95, L99-103: a pull that finds the queue not empty takes its head,
    and hands it to the worker that pulled; a pull that finds it empty
    hands out nothing. *)
Lemma step_pull w t s s' e :
  t = InGetNextAction w ∨ (∃ p, t = InGetNextActionWait w p) →
  step (Tick t) s = Some (s', e) →
  match queuedActions (op s) with
  | [] => dequeued e = []
  | action :: rest =>
      e = [EvDequeue action] ∧ queuedActions (op s') = rest ∧
      InDistributeAction w (Got action) ∈ threads s'
  end.
Proof.
  intros [->|[p ->]] H; break_step H; simplify_eq/=; try done.
  all: repeat split; rewrite ?elem_of_app, ?list_elem_of_singleton; auto.
Qed.

End queue.

(** C3, as the code has it: an action is appended to [runningActions] at
    the moment it is dequeued, and nothing is ever removed from
    [runningActions]: after any further inputs it is what it was, followed
    by the actions dequeued since, in the order they were dequeued. *)
Theorem C3_running_actions_only_grow ins s s' h :
  exec ins s = Some (s', h) →
  runningActions (op s') = runningActions (op s) ++ dequeued h.
Proof. intros H. by apply exec_queue in H as [? _]. Qed.

Lemma C3_witness :
  runningActions (op (final None one_task_one_action))
  = runningActions (op (new_Operation None))
    ++ dequeued (history None one_task_one_action).
Proof.
  apply (C3_running_actions_only_grow one_task_one_action
           (new_Operation None)
           (final None one_task_one_action)
           (history None one_task_one_action)).
  vm_compute. reflexivity.
Defined.

(** C3 as stated fails: the action of [one_task_one_action] was dequeued,
    its runner succeeded and the worker's loop has ended, and the action is
    still in [runningActions]. *)
Lemma C3_counterexample :
  runs None one_task_one_action
    (final None one_task_one_action) (history None one_task_one_action) ∧
  EvDequeue (mkWrapped 5 0) ∈ history None one_task_one_action ∧
  EvOutcome 0 Succeeded ∈ history None one_task_one_action ∧
  threads (final None one_task_one_action) = [] ∧
  runningActions (op (final None one_task_one_action)) = [mkWrapped 5 0].
Proof.
  vm_compute. repeat split; try reflexivity.
  - do 3 apply list_elem_of_further. apply list_elem_of_here.
  - do 4 apply list_elem_of_further. apply list_elem_of_here.
Qed.

(** C4: in every run the actions handed out by [getNextAction], in the
    order they are handed out, followed by the actions still queued, are the
    submitted actions in the order of their submission; and whenever a
    worker pulls while actions are queued, it is handed the one submitted
    first among them, which leaves the queue. *)
Theorem C4_actions_dequeued_in_submission_order ceiling ins s h :
  runs ceiling ins s h →
  submitted h = dequeued h ++ queuedActions (op s) ∧
  ∀ w t s' e,
    t = InGetNextAction w ∨ (∃ p, t = InGetNextActionWait w p) →
    step (Tick t) s = Some (s', e) →
    match queuedActions (op s) with
    | [] => dequeued e = []
    | action :: rest =>
        e = [EvDequeue action] ∧ queuedActions (op s') = rest ∧
        InDistributeAction w (Got action) ∈ threads s'
    end.
Proof.
  intros H. split.
  - by apply exec_queue in H as [_ ?].
  - intros w t s' e. apply step_pull.
Qed.

(** Two tasks run and three actions are submitted; worker 1 has pulled, and
    worker 0 pulls next. *)
Lemma C4_witness :
  submitted (history None three_actions_two_workers)
  = dequeued (history None three_actions_two_workers)
    ++ queuedActions (op (final None three_actions_two_workers)) ∧
  ∀ w t s' e,
    t = InGetNextAction w ∨ (∃ p, t = InGetNextActionWait w p) →
    step (Tick t) (final None three_actions_two_workers) = Some (s', e) →
    match queuedActions (op (final None three_actions_two_workers)) with
    | [] => dequeued e = []
    | action :: rest =>
        e = [EvDequeue action] ∧ queuedActions (op s') = rest ∧
        InDistributeAction w (Got action) ∈ threads s'
    end.
Proof.
  apply (C4_actions_dequeued_in_submission_order None three_actions_two_workers
           (final None three_actions_two_workers)
           (history None three_actions_two_workers)).
  vm_compute. reflexivity.
Defined.

(** In that run actions 5, 6 and 9 were submitted in this order; worker 1
    was handed action 5, actions 6 and 9 are queued, and the pull of
    worker 0 hands it action 6 and leaves action 9. *)
Example three_actions_in_order :
  submitted (history None three_actions_two_workers)
  = [mkWrapped 5 0; mkWrapped 6 1; mkWrapped 9 2] ∧
  dequeued (history None three_actions_two_workers) = [mkWrapped 5 0] ∧
  queuedActions (op (final None three_actions_two_workers))
  = [mkWrapped 6 1; mkWrapped 9 2] ∧
  threads (final None three_actions_two_workers)
  = [InGetNextAction 0; InDistributeAction 1 (Got (mkWrapped 5 0))] ∧
  step (Tick (InGetNextAction 0)) (final None three_actions_two_workers)
  = Some next_pull ∧
  next_pull.2 = [EvDequeue (mkWrapped 6 1)] ∧
  queuedActions (op next_pull.1) = [mkWrapped 9 2] ∧
  threads next_pull.1
  = [InDistributeAction 1 (Got (mkWrapped 5 0));
     InDistributeAction 0 (Got (mkWrapped 6 1))].
Proof. vm_compute. repeat split; reflexivity. Qed.

(** ** Tasks *)

Section tasks.

Lemma settle_Permutation task bodies rest running :
  pluck task bodies = Some rest →
  bodies ≡ₚ running →
  rest ≡ₚ removeRunning task running ∧
  running ≡ₚ task :: removeRunning task running.
Proof.
  intros Hp%pluck_Permutation Hb.
  assert (Hrun : running ≡ₚ task :: removeRunning task running).
  { apply removeRunning_Permutation. rewrite <-Hb, Hp. apply list_elem_of_here. }
  split; [|done].
  apply (Permutation_cons_inv (a := task)). by rewrite <-Hp, Hb.
Qed.

Lemma tasks_inv_step i past s h s' e :
  tasks_inv past s h → step i s = Some (s', e) →
  tasks_inv (past ++ [i]) s' (h ++ e).
Proof.
  unfold tasks_inv, started, rejections, resolutions.
  intros (Hbodies & Hfailed & Hstarted) H. rewrite !omap_app.
  break_step H; rewrite ?app_nil_r; try done.
  all: try match goal with
    | Hp : pluck ?t ?b = Some ?r, Hb : ?b ≡ₚ ?run |- _ =>
        destruct (settle_Permutation _ _ _ _ Hp Hb) as [Hrest Hrun];
        set (rr := removeRunning t run) in *;
        clearbody rr; rewrite Hrun in Hstarted
    end.
  all: repeat split; try done; rewrite ?Hstarted, ?Hbodies; solve_Permutation.
Qed.

End tasks.

(** C10: in every run the failed-tasks list is the list of the tasks whose
    body rejected, one entry per rejection and in the order of the
    rejections, so a task whose body only resolves never enters it; and
    every started task is in exactly one place: in the running set while its
    body is pending, and out of it, among the resolved or among the
    rejected, once its body settled. *)
Theorem C10_failed_tasks_are_the_rejected_ones ceiling ins s h :
  runs ceiling ins s h →
  failedTasks (op s) = rejections ins ∧
  started h ≡ₚ runningTasks (op s) ++ resolutions ins ++ rejections ins ∧
  runningTasks (op s) ≡ₚ taskBodies s.
Proof.
  intros Hr.
  assert (tasks_inv ins s h) as (? & ? & ?); [|done].
  revert ceiling ins s h Hr. apply runs_ind_inputs.
  - by intros c.
  - apply tasks_inv_step.
Qed.

Lemma C10_witness :
  failedTasks (op (final None one_resolves_one_rejects))
  = rejections one_resolves_one_rejects ∧
  started (history None one_resolves_one_rejects)
  ≡ₚ runningTasks (op (final None one_resolves_one_rejects))
     ++ resolutions one_resolves_one_rejects
     ++ rejections one_resolves_one_rejects ∧
  runningTasks (op (final None one_resolves_one_rejects))
  ≡ₚ taskBodies (final None one_resolves_one_rejects).
Proof.
  apply (C10_failed_tasks_are_the_rejected_ones None one_resolves_one_rejects
           (final None one_resolves_one_rejects)
           (history None one_resolves_one_rejects)).
  vm_compute. reflexivity.
Defined.

(** In that scenario task 7, which resolved, is not in the failed list and
    task 8, which rejected, is in it once. *)
Example failed_list_of_one_resolves_one_rejects :
  failedTasks (op (final None one_resolves_one_rejects)) = [8] ∧
  rejections one_resolves_one_rejects = [8] ∧
  resolutions one_resolves_one_rejects = [7] ∧
  runningTasks (op (final None one_resolves_one_rejects)) = [].
Proof. vm_compute. done. Qed.

(** ** Completion *)

Section completion.

Lemma completions_app h e : completions (h ++ e) = completions h + completions e.
Proof. unfold completions, completed. by rewrite omap_app, length_app. Qed.

Lemma completion_inv_step i s h s' e :
  completion_inv s h → step i s = Some (s', e) → completion_inv s' (h ++ e).
Proof.
  unfold completion_inv. intros [Hidle Honce] H.
  rewrite completions_app. setoid_rewrite elem_of_app.
  break_step H; unfold completions in *; simpl in *;
    try (done || lia);
    (split; [intros ? ? ? [Hin|Hin]; [by eapply Hidle|]; in_events Hin|]);
    tests; try done; try lia.
  all: destruct (length _); simplify_eq/=; try done.
Qed.

Lemma runs_completion_inv ceiling ins s h :
  runs ceiling ins s h → completion_inv s h.
Proof.
  revert ceiling ins s h. apply runs_ind.
  - intros c. split; [|done]. intros q r x Hin. by apply elem_of_nil in Hin.
  - apply completion_inv_step.
Qed.

(** L91-108: a pull that finds nothing queued and nothing running resolves
    the promise, with or without exhaustion, and tells the worker that there
    are no actions. *)
Lemma pull_with_nothing_left_completes ceiling ins s h w s' e :
  runs ceiling ins s h →
  step (Tick (InGetNextAction w)) s = Some (s', e) →
  queuedActions (op s) = [] → runningTasks (op s) = [] →
  waitUntilFinished s' = Resolved () ∧
  InDistributeAction w NoActions ∈ threads s' ∧
  taskProvider (op s') = taskProvider (op s).
Proof.
  intros [_ Hinv]%runs_completion_inv H Hq Hr.
  break_step H; simplify_eq/=; try done.
  all: repeat match goal with v : () |- _ => destruct v end.
  all: repeat split; rewrite ?elem_of_app, ?list_elem_of_singleton; auto.
Qed.

End completion.

(** What the code keeps of the completion rule: the promise of
    [waitUntilFinished] completes only at an instant at which the action
    queue is empty and no task is running, and in no run more than once; it
    is resolved exactly when that has happened. *)
Lemma completion_only_when_idle_and_once ceiling ins s h :
  runs ceiling ins s h →
  (∀ q r x, EvCompleted q r x ∈ h → q = 0 ∧ r = 0) ∧
  completions h ≤ 1 ∧
  (waitUntilFinished s = Resolved () ↔ completions h = 1) ∧
  (waitUntilFinished s = Pending ↔ completions h = 0).
Proof.
  intros [Hidle Honce]%runs_completion_inv. unfold waitUntilFinished.
  split; [done|].
  destruct (_finishedPromise (op s)) as [|[]|]; [| |done];
    rewrite Honce; repeat split; (done || lia).
Qed.

(** Two workers reach L107 one after the other; the promise completed
    once. *)
Lemma two_workers_complete_once :
  (∀ q r x, EvCompleted q r x ∈ history None two_workers_empty_supply →
            q = 0 ∧ r = 0) ∧
  completions (history None two_workers_empty_supply) ≤ 1 ∧
  (waitUntilFinished (final None two_workers_empty_supply) = Resolved ()
   ↔ completions (history None two_workers_empty_supply) = 1) ∧
  (waitUntilFinished (final None two_workers_empty_supply) = Pending
   ↔ completions (history None two_workers_empty_supply) = 0).
Proof.
  apply (completion_only_when_idle_and_once None two_workers_empty_supply
           (final None two_workers_empty_supply)
           (history None two_workers_empty_supply)).
  vm_compute. reflexivity.
Defined.

Example two_workers_detect_exhaustion :
  history None two_workers_empty_supply
  = [EvProviderCall 0 0 (whole 3); EvProviderCall 0 0 (whole 6); EvExhausted; EvExhausted;
     EvCompleted 0 0 false] ∧
  threads (final None two_workers_empty_supply)
  = [InDistributeAction 0 NoActions; InDistributeAction 1 NoActions].
Proof. vm_compute. done. Qed.

Section stall.

Lemma stalled_step i s s' e :
  stalled s → from_worker i = false → step i s = Some (s', e) → stalled s'.
Proof.
  unfold stalled. intros (Hpending & Hnull & Hbodies & Hthreads) Hi H.
  break_step H;
    repeat match goal with
      | Hp : pluck _ _ = Some _ |- _ =>
          apply pluck_Permutation in Hp; rewrite Hp in Hthreads;
          apply Forall_cons in Hthreads as [? Hthreads]
      end;
    simplify_eq/=; tests; simplify_eq/=;
    repeat split; rewrite ?app_nil_r; done.
Qed.

Lemma stalled_exec ins s s' h :
  stalled s → Forall (λ i, from_worker i = false) ins →
  exec ins s = Some (s', h) → stalled s'.
Proof.
  revert s h. induction ins as [|i ins IH]; simpl; intros s h Hs Hins H.
  - by simplify_eq.
  - apply Forall_cons in Hins as [Hi Hins].
    destruct (step i s) as [[sa ea]|] eqn:Hstep; simpl in *; [|done].
    destruct (exec ins sa) as [[sb eb]|] eqn:Hb; simpl in *; [|done].
    simplify_eq. eapply IH; [|done..]. by eapply stalled_step.
Qed.

End stall.

(** C1 fails on the code, which completes before exhaustion.  One worker,
    ceiling 1; the provider yields task 7, which submits nothing and
    resolves while the worker is between the [break] on L116 and the
    [shift] on L91.  The handler of the task asks the provider again (L148);
    the worker, resumed, finds nothing queued and nothing running, and L107
    resolves the promise of [waitUntilFinished]: the provider has not
    signalled exhaustion, its field is still set, and a query is in flight.
    The run goes on after completion: the worker is told that there are no
    more actions and its loop ends, the provider answers the query with
    task 8, and task 8 is started with no worker left to run its actions. *)
Theorem C1_completes_before_exhaustion :
  runs (Some (whole 1)) completion_race
    (final (Some (whole 1)) completion_race) (history (Some (whole 1)) completion_race) ∧
  history (Some (whole 1)) completion_race
  = [EvProviderCall 0 0 (whole 1); EvTaskStart 7; EvTaskResolve 7;
     EvProviderCall 0 0 (whole 1); EvCompleted 0 0 true] ∧
  waitUntilFinished (final (Some (whole 1)) completion_race) = Resolved () ∧
  taskProvider (op (final (Some (whole 1)) completion_race)) = true ∧
  (EvExhausted ∉ history (Some (whole 1)) completion_race) ∧
  threads (final (Some (whole 1)) completion_race)
  = [InStartNewTask FromTaskHandler; InDistributeAction 0 NoActions] ∧
  runs (Some (whole 1)) completion_race_goes_on
    (final (Some (whole 1)) completion_race_goes_on)
    (history (Some (whole 1)) completion_race_goes_on) ∧
  history (Some (whole 1)) completion_race_goes_on
  = history (Some (whole 1)) completion_race
    ++ [EvOutcome 0 NoMoreActions; EvTaskStart 8] ∧
  waitUntilFinished (final (Some (whole 1)) completion_race_goes_on) = Resolved () ∧
  runningTasks (op (final (Some (whole 1)) completion_race_goes_on)) = [8] ∧
  threads (final (Some (whole 1)) completion_race_goes_on)
  = [InEnqueueTasks FromTaskHandler].
Proof.
  vm_compute. repeat split. intros Hin. in_events Hin.
Qed.

(** The other direction is not kept either (the TODO on L106).  In
    [completion_stall] exhaustion has been signalled, no task is running and
    the queue is empty, and the promise is pending; it stays pending
    whatever happens, as long as no worker comes back from its runner and no
    worker is registered. *)
Lemma completion_stall_stays_pending :
  runs None completion_stall
    (final None completion_stall) (history None completion_stall) ∧
  EvExhausted ∈ history None completion_stall ∧
  runningTasks (op (final None completion_stall)) = [] ∧
  queuedActions (op (final None completion_stall)) = [] ∧
  waitUntilFinished (final None completion_stall) = Pending ∧
  ∀ ins s h, Forall (λ i, from_worker i = false) ins →
             exec ins (final None completion_stall) = Some (s, h) →
             waitUntilFinished s = Pending.
Proof.
  split; [vm_compute; reflexivity|].
  split; [vm_compute; do 6 apply list_elem_of_further; apply list_elem_of_here|].
  split; [vm_compute; reflexivity|].
  split; [vm_compute; reflexivity|].
  split; [vm_compute; reflexivity|].
  intros ins s h Hins H.
  eapply stalled_exec in H as (? & _); [done| |done].
  vm_compute. repeat split. repeat constructor.
Qed.

(** With ceiling 0 no interleaving is needed: the first pull of the first
    worker completes the promise and the provider is never asked. *)
Example completion_with_ceiling_zero :
  waitUntilFinished (final (Some (whole 0)) completion_ceiling_zero) = Resolved () ∧
  history (Some (whole 0)) completion_ceiling_zero = [EvCompleted 0 0 true].
Proof. vm_compute. done. Qed.

(** ** The promises handed to submitters *)

Section handles.

Lemma threads_handles_app ts1 ts2 :
  threads_handles (ts1 ++ ts2) = threads_handles ts1 ++ threads_handles ts2.
Proof.
  induction ts1 as [|t ts1 IH]; simpl; [done|]. by rewrite IH, app_assoc.
Qed.

Global Instance threads_handles_Permutation :
  Proper ((≡ₚ) ==> (≡ₚ)) threads_handles.
Proof.
  intros ts1 ts2 Hp. induction Hp as [|t ts1 ts2 _ IH|t1 t2 ts|ts1 ts2 ts3 _ IH1 _ IH2];
    simpl.
  - done.
  - by rewrite IH.
  - solve_Permutation.
  - by rewrite IH1.
Qed.

(** How one transition moves [resolve] functions: a submission makes a new
    promise and queues its [resolve] function; the answer of a runner uses
    up the one its worker held, calling it if the runner resolved; a runner
    that throws makes its worker drop the one it held; nothing else makes,
    drops or calls one. *)
Lemma step_held i s s' e :
  step i s = Some (s', e) →
  match i with
  | Submit _ =>
      held s' ≡ₚ length (handles s) :: held s ∧
      handles s' = handles s ++ [Pending]
  | RunnerReturns w action r =>
      held s ≡ₚ callback action :: held s' ∧
      handles s' = match r with
                   | Some result =>
                       alter (resolvePromise result) (callback action) (handles s)
                   | None => handles s
                   end
  | RunnerThrows w action =>
      held s ≡ₚ callback action :: held s' ∧ handles s' = handles s
  | _ => held s' ≡ₚ held s ∧ handles s' = handles s
  end.
Proof.
  intros H. break_step H; unfold held; simpl;
    repeat match goal with
      | Hp : pluck _ _ = Some _ |- _ =>
          apply pluck_Permutation in Hp; rewrite Hp
      end;
    rewrite ?fmap_app, ?threads_handles_app; simpl;
    (split; [solve_Permutation|done]).
Qed.

Lemma handles_inv_step i s s' e :
  handles_inv s → step i s = Some (s', e) → handles_inv s'.
Proof.
  intros [Hnodup Hpending] Hstep%step_held. unfold handles_inv.
  destruct i as [w|x|t ok|c r|w action r|w action|p|t];
    destruct Hstep as [Hheld Hhandles]; rewrite Hhandles.
  all: try (split; [by rewrite Hheld|];
            intros q Hin; apply Hpending; by rewrite <-Hheld).
  - (* Submit *)
    assert (length (handles s) ∉ held s) as Hfresh.
    { intros Hin%Hpending%lookup_lt_Some. lia. }
    split; [rewrite Hheld; by apply NoDup_cons|].
    intros p Hin. rewrite Hheld in Hin.
    apply elem_of_cons in Hin as [->|Hin].
    + by rewrite lookup_app_r, Nat.sub_diag.
    + rewrite lookup_app_l; [by apply Hpending|].
      by eapply lookup_lt_Some, Hpending.
  - (* RunnerReturns *)
    rewrite Hheld in Hnodup.
    apply NoDup_cons in Hnodup as [Hnotin Hnodup]. split; [done|].
    intros p Hin.
    assert (handles s !! p = Some Pending) as Hp.
    { apply Hpending. rewrite Hheld. by apply list_elem_of_further. }
    destruct r; [|done].
    rewrite list_lookup_alter_ne; [done|]. intros Heq. by rewrite <-Heq in Hin.
  - (* RunnerThrows *)
    rewrite Hheld in Hnodup.
    apply NoDup_cons in Hnodup as [Hnotin Hnodup]. split; [done|].
    intros p Hin. apply Hpending. rewrite Hheld. by apply list_elem_of_further.
Qed.

Lemma abandoned_step p i s s' e :
  handles_inv s → abandoned p s → step i s = Some (s', e) → abandoned p s'.
Proof.
  intros [Hnodup Hpending] [Hp Hnotin] Hstep%step_held. unfold abandoned.
  destruct i as [w|x|t ok|c r|w action r|w action|q|t];
    destruct Hstep as [Hheld Hhandles]; rewrite Hhandles.
  all: try (split; [done|by rewrite Hheld]).
  - (* Submit *)
    pose proof (lookup_lt_Some _ _ _ Hp). split.
    + by rewrite lookup_app_l.
    + rewrite Hheld. apply not_elem_of_cons. split; [lia|done].
  - (* RunnerReturns *)
    rewrite Hheld in Hnotin.
    apply not_elem_of_cons in Hnotin as [Hne Hnotin]. split; [|done].
    destruct r; [|done]. by rewrite list_lookup_alter_ne.
  - (* RunnerThrows *)
    rewrite Hheld in Hnotin.
    by apply not_elem_of_cons in Hnotin as [Hne Hnotin].
Qed.

Lemma runs_handles_inv ceiling ins s h :
  runs ceiling ins s h → handles_inv s.
Proof.
  revert ceiling ins s h. apply (runs_ind (λ s _, handles_inv s)).
  - intros c. split; [constructor|]. intros p Hin. by apply elem_of_nil in Hin.
  - intros i s h s' e. apply handles_inv_step.
Qed.

Lemma abandoned_exec p ins s s' h :
  handles_inv s → abandoned p s → exec ins s = Some (s', h) → abandoned p s'.
Proof.
  revert s h. induction ins as [|i ins IH]; simpl; intros s h Hinv Hp H.
  - by simplify_eq.
  - destruct (step i s) as [[sa ea]|] eqn:Hstep; simpl in *; [|done].
    destruct (exec ins sa) as [[sb eb]|] eqn:Hb; simpl in *; [|done].
    simplify_eq. eapply IH; [| |done].
    + by eapply handles_inv_step.
    + by eapply abandoned_step.
Qed.

(** The rejection of a runner is reported as [Failed], and the promise of
    the action is left behind. *)
Lemma runner_rejects_reported w action s s' e :
  step (RunnerReturns w action None) s = Some (s', e) →
  e = [EvOutcome w Failed] ∧ InWorkerRun w Failed ∈ threads s'.
Proof.
  intros H. break_step H. split; [done|].
  apply elem_of_app. right. apply list_elem_of_here.
Qed.

Lemma runner_rejects_abandons w action s s' e :
  handles_inv s →
  step (RunnerReturns w action None) s = Some (s', e) →
  abandoned (callback action) s'.
Proof.
  intros [Hnodup Hpending] [Hheld Hhandles]%step_held. split.
  - rewrite Hhandles. apply Hpending. rewrite Hheld. apply list_elem_of_here.
  - rewrite Hheld in Hnodup. by apply NoDup_cons in Hnodup as [? _].
Qed.

(** How one transition changes the promises that [performAction]
    returned. *)
Lemma step_returned i s s' e :
  step i s = Some (s', e) →
  match i with
  | Submit _ => returned s' = returned s ++ [Pending]
  | Adopt p =>
      ∃ r, handles s !! p = Some (Resolved r) ∧
           returned s' = alter (resolvePromise r) p (returned s)
  | _ => returned s' = returned s
  end.
Proof. intros H. break_step H; eauto. Qed.

Lemma returned_inv_step i s s' e :
  returned_inv s → step i s = Some (s', e) → returned_inv s'.
Proof.
  intros [Hlen Hfollow] Hstep.
  pose proof (step_held _ _ _ _ Hstep) as Hheld.
  pose proof (step_returned _ _ _ _ Hstep) as Hret.
  unfold returned_inv.
  destruct i as [w|x|t ok|c r|w action r|w action|p|t];
    destruct Hheld as [_ Hhandles]; rewrite Hhandles;
    try (rewrite Hret; by split).
  - (* Submit *)
    rewrite Hret, !length_app, Hlen. split; [done|].
    intros p st [Hl|[Hge Hl]]%lookup_app_Some.
    + destruct (Hfollow p st Hl) as [->|Hh]; [by left|right].
      rewrite lookup_app_l; [done|]. by eapply lookup_lt_Some.
    + left. destruct (p - length (returned s)); simplify_eq/=; done.
  - (* RunnerReturns *)
    rewrite Hret. destruct r as [result|]; [|by split].
    rewrite length_alter. split; [done|].
    intros p st Hl. destruct (Hfollow p st Hl) as [->|Hh]; [by left|].
    destruct (decide (callback action = p)) as [<-|Hne].
    + rewrite list_lookup_alter_eq, Hh. destruct st; simpl; auto.
    + right. by rewrite list_lookup_alter_ne.
  - (* Adopt *)
    destruct Hret as (r & Hr & ->). rewrite length_alter. split; [done|].
    intros q st Hl. destruct (decide (p = q)) as [<-|Hne].
    + rewrite list_lookup_alter_eq in Hl. unfold PromiseId in *.
      destruct (returned s !! p) as [st0|] eqn:Hst0; simplify_eq/=.
      destruct (Hfollow p st0 Hst0) as [->|Hh]; [by right|].
      rewrite Hr in Hh. simplify_eq/=. by right.
    + rewrite list_lookup_alter_ne in Hl by done. by apply Hfollow.
Qed.

Lemma exec_returned_inv ins s s' h :
  returned_inv s → exec ins s = Some (s', h) → returned_inv s'.
Proof.
  intros Hinv H.
  apply (exec_ind (λ s1 _, returned_inv s1)) with (h := []) in H; [done| |done].
  intros i sa _ sb e. apply returned_inv_step.
Qed.

(** While the promise of L78 is pending, so is the promise that
    [performAction] returned. *)
Lemma returned_inv_pending s p :
  returned_inv s → handles s !! p = Some Pending →
  returned s !! p = Some Pending.
Proof.
  intros [Hlen Hfollow] Hp.
  destruct (returned s !! p) as [st|] eqn:Hst.
  - destruct (Hfollow p st Hst) as [->|Hh]; [done|]. congruence.
  - apply lookup_ge_None in Hst. apply lookup_lt_Some in Hp. lia.
Qed.

End handles.

(** C2: when the runner of a worker rejects for an action, the worker is
    told [Failed], and the promise that [performAction] returned for that
    action is pending then and after whatever happens next: it is never
    resolved and never rejected.  This holds of the promise made on L78,
    whose [resolve] is the callback, and of the promise of the async
    function, which the submitter holds. *)
Theorem C2_runner_failure_leaves_handle_pending
    ceiling ins s h w action s1 e1 ins' s2 e2 :
  runs ceiling ins s h →
  step (RunnerReturns w action None) s = Some (s1, e1) →
  exec ins' s1 = Some (s2, e2) →
  e1 = [EvOutcome w Failed] ∧
  InWorkerRun w Failed ∈ threads s1 ∧
  handles s2 !! callback action = Some Pending ∧
  returned s2 !! callback action = Some Pending.
Proof.
  intros Hr Hstep Hexec.
  pose proof (runs_handles_inv _ _ _ _ Hr) as Hinv.
  destruct (runner_rejects_reported _ _ _ _ _ Hstep) as [He Hthread].
  split; [done|]. split; [done|].
  assert (handles s2 !! callback action = Some Pending) as Hpending.
  { eapply abandoned_exec in Hexec as [? _]; [done| |].
    - by eapply handles_inv_step.
    - by eapply runner_rejects_abandons. }
  split; [done|].
  apply returned_inv_pending; [|done].
  eapply exec_returned_inv; [|exact Hexec].
  eapply returned_inv_step; [|exact Hstep].
  eapply exec_returned_inv; [|exact Hr].
  split; [done|]. intros p st Hl. simpl in Hl. by rewrite lookup_nil in Hl.
Qed.

Lemma C2_witness :
  rejection.2 = [EvOutcome 0 Failed] ∧
  InWorkerRun 0 Failed ∈ threads rejection.1 ∧
  handles after_rejection.1 !! callback (mkWrapped 5 0) = Some Pending ∧
  returned after_rejection.1 !! callback (mkWrapped 5 0) = Some Pending.
Proof.
  apply (C2_runner_failure_leaves_handle_pending None runner_rejects_before
           (final None runner_rejects_before)
           (history None runner_rejects_before)
           0 (mkWrapped 5 0) rejection.1 rejection.2
           runner_rejects_after after_rejection.1 after_rejection.2);
    vm_compute; reflexivity.
Defined.

(** In that scenario the second action of the task is resolved with the
    runner's answer while the first stays pending. *)
Example handles_after_rejection :
  handles after_rejection.1 = [Pending; Resolved 12].
Proof. vm_compute. done. Qed.

(** ** The notification gate *)

Section notify.

(** L39: while a promise is installed, [waitForNotify] returns it and
    changes nothing. *)
Lemma waitForNotify_pending s p :
  _notifyPromise (op s) = Some p →
  waitForNotify s = (Some p, s, []).
Proof. intros H. unfold_M. by rewrite H. Qed.

(** L40: when none is installed, [waitForNotify] makes and installs one,
    and returns [undefined]. *)
Lemma waitForNotify_installs s :
  _notifyPromise (op s) = None →
  ∃ s', waitForNotify s = (None, s', []) ∧
        _notifyPromise (op s') = Some (length (notifyPromises s)) ∧
        _notifyResolve (op s') = Some (length (notifyPromises s)) ∧
        notifyPromises s' = notifyPromises s ++ [Pending].
Proof. intros H. unfold_M. rewrite H. simpl. by eexists. Qed.

(** L31: without an installed promise [notifyAll] does nothing. *)
Lemma notifyAll_no_waiter s :
  _notifyResolve (op s) = None →
  notifyAll s = ((), s, []).
Proof. intros H. unfold_M. by rewrite H. Qed.

(** L32-34: [notifyAll] resolves the installed promise, which releases
    whoever awaits it, and uninstalls it. *)
Lemma notifyAll_releases s p :
  _notifyResolve (op s) = Some p →
  notifyPromises s !! p = Some Pending →
  ∃ s', notifyAll s = ((), s', []) ∧
        awaited (Some p) s' = true ∧
        _notifyPromise (op s') = None ∧
        _notifyResolve (op s') = None.
Proof.
  intros H Hp. unfold_M. rewrite H. simpl. eexists. split; [done|].
  unfold awaited, PromiseId in *. simpl. by rewrite list_lookup_alter_eq, Hp.
Qed.

End notify.

(** C6 fails on the code for the call that installs the promise.  In
    [first_wait] the worker is the first to wait (L98): [waitForNotify] has
    made promise 0, installed it and left it pending, but the worker's
    [await] received [undefined], so the worker runs again although
    [notifyAll] was never called; only its second wait receives the
    promise, and is held. *)
Theorem C6_first_wait_is_not_held :
  (threads (final (Some (whole 1)) first_wait) = [InGetNextActionWait 0 None] ∧
   _notifyPromise (op (final (Some (whole 1)) first_wait)) = Some 0 ∧
   notifyPromises (final (Some (whole 1)) first_wait) = [Pending]) ∧
  (runs (Some (whole 1)) first_wait_released
     (final (Some (whole 1)) first_wait_released)
     (history (Some (whole 1)) first_wait_released) ∧
   history (Some (whole 1)) first_wait_released = [EvProviderCall 0 0 (whole 1); EvTaskStart 7] ∧
   notifyPromises (final (Some (whole 1)) first_wait_released) = [Pending] ∧
   threads (final (Some (whole 1)) first_wait_released)
   = [InGetNextActionWait 0 (Some 0)]) ∧
  step (Tick (InGetNextActionWait 0 (Some 0)))
       (final (Some (whole 1)) first_wait_released) = None.
Proof. vm_compute. done. Qed.

(** ** The list-backed provider *)

Section list_provider.

Lemma provider_calls_spec n tasks :
  provider_calls n tasks
  = ((Some <$> take n tasks) ++ replicate (n - length tasks) None,
     drop n tasks).
Proof.
  revert tasks. induction n as [|n IH]; intros tasks; simpl.
  - done.
  - destruct tasks as [|t tasks]; simpl; rewrite IH; simpl.
    + by rewrite take_nil, drop_nil, Nat.sub_0_r.
    + done.
Qed.

End list_provider.

(** [taskProviderFromList]: [n] successive calls of the provider answer
    with the first [n] tasks of the array in order, and with "no task" from
    then on; they leave the array without its first [n] tasks.  Once empty
    the array stays empty. *)
Theorem provider_calls_take_then_nothing n tasks :
  (provider_calls n tasks).1
  = (Some <$> take n tasks) ++ replicate (n - length tasks) None ∧
  (provider_calls n tasks).2 = drop n tasks ∧
  (length tasks ≤ n → (provider_calls n tasks).2 = []).
Proof.
  rewrite provider_calls_spec. simpl. repeat split.
  intros Hn. by apply drop_ge.
Qed.

Section start_order.

(** One transition: the pending list gains at its tail the task the
    provider answered with and loses at its head the task that is
    started. *)
Lemma step_pending i s s' e :
  step i s = Some (s', e) →
  pendingTasks (op s) ++ obtained [i] = started e ++ pendingTasks (op s').
Proof.
  intros H. break_step H; simpl; rewrite ?app_nil_r; done.
Qed.

(** The provider field is set exactly as long as no answer was "no
    task". *)
Lemma step_provider_field i s s' e :
  step i s = Some (s', e) →
  taskProvider (op s')
  = taskProvider (op s) && negb (existsb no_task (answers [i])).
Proof.
  intros H. break_step H; simpl; rewrite ?andb_true_r, ?andb_false_r; done.
Qed.

Lemma runs_pending ceiling ins s h :
  runs ceiling ins s h →
  obtained ins = started h ++ pendingTasks (op s) ∧
  taskProvider (op s) = negb (existsb no_task (answers ins)).
Proof.
  revert ceiling ins s h.
  apply (runs_ind_inputs
           (λ ins s h,
              obtained ins = started h ++ pendingTasks (op s) ∧
              taskProvider (op s) = negb (existsb no_task (answers ins)))).
  - done.
  - intros i past s h s' e [IHo IHp] Hstep.
    pose proof (step_pending _ _ _ _ Hstep) as Hpend.
    pose proof (step_provider_field _ _ _ _ Hstep) as Hfield.
    unfold obtained, started, answers in *.
    rewrite !omap_app, existsb_app, negb_orb, <-IHp, Hfield. split; [|done].
    by rewrite IHo, <-!app_assoc, Hpend.
Qed.

End start_order.

(** Tasks are started in the order in which the provider yielded them: in
    every run the tasks obtained so far are the tasks started so far, in
    that order, followed by the pending list. *)
Theorem tasks_started_in_the_order_obtained ceiling ins s h :
  runs ceiling ins s h →
  obtained ins = started h ++ pendingTasks (op s).
Proof. intros H. by apply runs_pending in H as [? _]. Qed.

Lemma tasks_started_in_the_order_obtained_witness :
  obtained two_tasks_ceiling_one
  = started (history (Some (whole 1)) two_tasks_ceiling_one)
    ++ pendingTasks (op (final (Some (whole 1)) two_tasks_ceiling_one)).
Proof.
  apply (tasks_started_in_the_order_obtained (Some (whole 1)) two_tasks_ceiling_one
           (final (Some (whole 1)) two_tasks_ceiling_one)
           (history (Some (whole 1)) two_tasks_ceiling_one)).
  vm_compute. reflexivity.
Defined.

Section list_backed_runs.

Lemma obtained_answers ins : obtained ins = omap id (answers ins).
Proof.
  unfold obtained, answers. induction ins as [|[] ins IH]; simpl; try done.
  destruct r; simpl; [f_equal|]; exact IH.
Qed.

Lemma omap_id_answers (ts : list Task) n :
  omap id ((Some <$> ts) ++ replicate n None) = ts.
Proof.
  induction ts as [|t ts IH]; simpl.
  - induction n as [|n IHn]; simpl; done.
  - f_equal. exact IH.
Qed.

Lemma existsb_no_task (ts : list Task) n :
  existsb no_task ((Some <$> ts) ++ replicate n None) = negb (n =? 0).
Proof.
  induction ts as [|t ts IH]; simpl; [|done].
  destruct n; simpl; done.
Qed.

End list_backed_runs.

(** With the list-backed provider over [tasks], a run obtains the tasks of
    the array in order and without gaps, starts them in that order, and the
    provider field is [null] only when every task of the array has been
    obtained. *)
Theorem list_backed_run_obtains_the_list_in_order ceiling ins s h tasks :
  runs ceiling ins s h →
  list_backed tasks ins →
  started h ++ pendingTasks (op s) = take (length (answers ins)) tasks ∧
  (taskProvider (op s) = false →
   started h ++ pendingTasks (op s) = tasks).
Proof.
  intros [Ho Hp]%runs_pending Hlist. unfold list_backed in Hlist.
  rewrite provider_calls_spec in Hlist. simpl in Hlist.
  remember (length (answers ins)) as k eqn:Hk. clear Hk.
  rewrite <-Ho, obtained_answers, Hp, Hlist.
  rewrite omap_id_answers, existsb_no_task. split; [done|].
  intros Hn%negb_false_iff%negb_true_iff%Nat.eqb_neq.
  apply take_ge. lia.
Qed.

Lemma list_backed_run_obtains_the_list_in_order_witness :
  started (history (Some (whole 1)) two_tasks_ceiling_one)
  ++ pendingTasks (op (final (Some (whole 1)) two_tasks_ceiling_one))
  = take (length (answers two_tasks_ceiling_one)) [7; 8] ∧
  (taskProvider (op (final (Some (whole 1)) two_tasks_ceiling_one)) = false →
   started (history (Some (whole 1)) two_tasks_ceiling_one)
   ++ pendingTasks (op (final (Some (whole 1)) two_tasks_ceiling_one))
   = [7; 8]).
Proof.
  apply (list_backed_run_obtains_the_list_in_order (Some (whole 1))
           two_tasks_ceiling_one
           (final (Some (whole 1)) two_tasks_ceiling_one)
           (history (Some (whole 1)) two_tasks_ceiling_one) [7; 8]);
    vm_compute; reflexivity.
Defined.

(** ** Counting continuations *)

Section tally.

Lemma tally_app f ts1 ts2 : tally f (ts1 ++ ts2) = tally f ts1 + tally f ts2.
Proof. induction ts1 as [|t ts1 IH]; simpl; [done|]. rewrite IH. lia. Qed.

Lemma tally_pluck f t ts rest :
  pluck t ts = Some rest →
  tally f ts = (if f t then 1 else 0) + tally f rest.
Proof.
  revert rest. induction ts as [|y ts IH]; simpl; intros rest H; [done|].
  case_decide; simplify_eq; [done|].
  destruct (pluck t ts) as [r|]; simplify_eq/=.
  rewrite (IH r eq_refl). lia.
Qed.

Lemma tally_le f g ts :
  (∀ t, f t = true → g t = true) → tally f ts ≤ tally g ts.
Proof.
  intros Hfg. induction ts as [|t ts IH]; simpl; [done|].
  destruct (f t) eqn:Hf; [rewrite (Hfg _ Hf)|]; lia.
Qed.

Lemma tally_zero_Forall f ts :
  tally f ts = 0 ↔ Forall (λ t, f t = false) ts.
Proof.
  induction ts as [|t ts IH]; simpl.
  - split; [constructor|done].
  - rewrite Forall_cons, <-IH. destruct (f t); split; (lia || naive_solver).
Qed.

End tally.

(** Replace what is known of a plucked thread list by counts. *)
Ltac tally_plucked f :=
  repeat match goal with
    | Hp : pluck ?t ?ts = Some ?rest |- _ =>
        lazymatch goal with
        | _ : tally f ts = _ + tally f rest |- _ => fail
        | _ => pose proof (tally_pluck f _ _ _ Hp)
        end
    end.

(** What an equation between lists says of their lengths. *)
Ltac lengths :=
  repeat match goal with
    | H : _ ++ _ = _ |- _ =>
        apply (f_equal length) in H; rewrite length_app in H; simpl in H
    end.

Section accounts.

Lemma step_starters i s s' e :
  length (pendingTasks (op s)) = tally is_starter (threads s) →
  step i s = Some (s', e) →
  length (pendingTasks (op s')) = tally is_starter (threads s').
Proof.
  intros Hinv H. break_step H; tally_plucked is_starter; lengths;
    rewrite ?tally_app, ?length_app in *; simpl in *; lia.
Qed.

Lemma step_loops w i s s' e :
  tally (loop_of w) (threads s) ≤ length (filter (w =.) (workers (op s))) →
  step i s = Some (s', e) →
  tally (loop_of w) (threads s') ≤ length (filter (w =.) (workers (op s'))).
Proof.
  intros Hinv H. break_step H; tally_plucked (loop_of w);
    rewrite ?tally_app, ?filter_app, ?length_app, ?filter_cons, ?filter_nil in *;
    simpl in *;
    repeat (case_bool_decide || case_decide); simplify_eq/=; lia.
Qed.

Lemma step_dequeued i s s' e :
  step i s = Some (s', e) →
  length (dequeued e) + tally holds_action (threads s)
  = outcomes Succeeded e + outcomes Failed e + thrown [i]
    + tally holds_action (threads s').
Proof.
  intros H. break_step H; tally_plucked holds_action;
    rewrite ?tally_app in *; simpl in *; lia.
Qed.

End accounts.

(** Every task obtained from the provider and not yet started has a
    [startPendingTasks] waiting to start it: the pending list is as long as
    there are continuations suspended on L138. *)
Theorem every_pending_task_has_a_starter ceiling ins s h :
  runs ceiling ins s h →
  length (pendingTasks (op s)) = tally is_starter (threads s).
Proof.
  revert ceiling ins s h.
  apply (runs_ind (λ s _, length (pendingTasks (op s))
                          = tally is_starter (threads s))).
  - done.
  - intros i s h s' e. apply step_starters.
Qed.

Lemma every_pending_task_has_a_starter_witness :
  length (pendingTasks (op (final (Some (whole 1)) two_tasks_ceiling_one)))
  = tally is_starter (threads (final (Some (whole 1)) two_tasks_ceiling_one)).
Proof.
  apply (every_pending_task_has_a_starter (Some (whole 1)) two_tasks_ceiling_one
           (final (Some (whole 1)) two_tasks_ceiling_one)
           (history (Some (whole 1)) two_tasks_ceiling_one)).
  vm_compute. reflexivity.
Defined.

(** A worker runs at most one action at a time for each time it was
    registered: the continuations of the [run] loops of worker [w], and so
    the runners of [w] in progress, are at most as many as the entries of
    [w] in the worker list. *)
Theorem one_action_at_a_time_per_worker ceiling ins s h w :
  runs ceiling ins s h →
  tally (running_action_of w) (threads s) ≤ tally (loop_of w) (threads s) ∧
  tally (loop_of w) (threads s) ≤ length (filter (w =.) (workers (op s))).
Proof.
  intros Hr. split.
  - apply tally_le. by intros [].
  - revert ceiling ins s h Hr.
    apply (runs_ind (λ s _, tally (loop_of w) (threads s)
                            ≤ length (filter (w =.) (workers (op s))))).
    + intros c. simpl. lia.
    + intros i s h s' e. apply step_loops.
Qed.

Lemma one_action_at_a_time_per_worker_witness :
  tally (running_action_of 0) (threads (final None runner_rejects_before))
  ≤ tally (loop_of 0) (threads (final None runner_rejects_before)) ∧
  tally (loop_of 0) (threads (final None runner_rejects_before))
  ≤ length (filter (0 =.) (workers (op (final None runner_rejects_before)))).
Proof.
  apply (one_action_at_a_time_per_worker None runner_rejects_before
           (final None runner_rejects_before)
           (history None runner_rejects_before) 0).
  vm_compute. reflexivity.
Defined.

Section accounts_of_runs.

Lemma calls_app h e : calls (h ++ e) = calls h + calls e.
Proof. unfold calls. by rewrite omap_app, length_app. Qed.

Lemma outcomes_app r h e : outcomes r (h ++ e) = outcomes r h + outcomes r e.
Proof. unfold outcomes. by rewrite omap_app, length_app. Qed.

Lemma dequeued_app h e : dequeued (h ++ e) = dequeued h ++ dequeued e.
Proof. unfold dequeued. by rewrite omap_app. Qed.

Lemma answers_app ins1 ins2 : answers (ins1 ++ ins2) = answers ins1 ++ answers ins2.
Proof. unfold answers. by rewrite omap_app. Qed.

Lemma thrown_app ins1 ins2 : thrown (ins1 ++ ins2) = thrown ins1 + thrown ins2.
Proof. unfold thrown. by rewrite omap_app, length_app. Qed.

End accounts_of_runs.

(** Every dequeued action is accounted for, and a runner that throws is the
    one way to lose one: in every run each dequeued action has been
    reported as succeeded or as failed, or its runner threw before it
    returned a promise (then nothing is reported and no continuation holds
    the action any more), or it is held by a continuation that is about to
    call the runner or is inside it. *)
Theorem every_dequeued_action_is_accounted_for ceiling ins s h :
  runs ceiling ins s h →
  length (dequeued h)
  = outcomes Succeeded h + outcomes Failed h + thrown ins
    + tally holds_action (threads s).
Proof.
  revert ceiling ins s h.
  apply (runs_ind_inputs
           (λ ins s h, length (dequeued h)
                       = outcomes Succeeded h + outcomes Failed h + thrown ins
                         + tally holds_action (threads s))).
  - done.
  - intros i past s h s' e IH Hstep%step_dequeued.
    rewrite dequeued_app, length_app, !outcomes_app, thrown_app. lia.
Qed.

Lemma every_dequeued_action_is_accounted_for_witness :
  length (dequeued (history None runner_throws))
  = outcomes Succeeded (history None runner_throws)
    + outcomes Failed (history None runner_throws)
    + thrown runner_throws
    + tally holds_action (threads (final None runner_throws)).
Proof.
  apply (every_dequeued_action_is_accounted_for None runner_throws
           (final None runner_throws) (history None runner_throws)).
  vm_compute. reflexivity.
Defined.

(** In the run where the runner throws, one action was dequeued, no outcome
    was reported to the worker, and no continuation of the worker is left:
    its loop of L188 has ended by the exception. *)
Example runner_throws_loses_the_action :
  runs None runner_throws (final None runner_throws) (history None runner_throws) ∧
  dequeued (history None runner_throws) = [mkWrapped 5 0] ∧
  outcomes Succeeded (history None runner_throws) = 0 ∧
  outcomes Failed (history None runner_throws) = 0 ∧
  thrown runner_throws = 1 ∧
  tally holds_action (threads (final None runner_throws)) = 0 ∧
  tally (loop_of 0) (threads (final None runner_throws)) = 0 ∧
  handles (final None runner_throws) !! 0 = Some Pending.
Proof. vm_compute. repeat split; reflexivity. Qed.

Section leaving_workers.

Lemma leaving_inv_step i s h s' e :
  leaving_inv s h → step i s = Some (s', e) → leaving_inv s' (h ++ e).
Proof.
  unfold leaving_inv. intros Hinv H. rewrite outcomes_app.
  break_step H; tally_plucked leaving;
    rewrite ?tally_app in *; unfold outcomes in *; simpl in *;
    try done; lia.
Qed.

Lemma runs_leaving_inv ceiling ins s h :
  runs ceiling ins s h → leaving_inv s h.
Proof.
  revert ceiling ins s h. apply runs_ind.
  - done.
  - apply leaving_inv_step.
Qed.

End leaving_workers.

(** A worker is told that there are no more actions only after the promise
    of [waitUntilFinished] has been resolved: if [distributeAction] has
    reported [NoMoreActions], or [getNextAction] has returned 'no_actions'
    to a continuation, the promise is resolved. *)
Theorem no_more_actions_only_after_completion ceiling ins s h :
  runs ceiling ins s h →
  0 < outcomes NoMoreActions h + tally leaving (threads s) →
  waitUntilFinished s = Resolved ().
Proof.
  intros Hinv%runs_leaving_inv Hpos. unfold leaving_inv, waitUntilFinished in *.
  destruct (_finishedPromise (op s)) as [|[]|]; [lia|done|done].
Qed.

Lemma no_more_actions_only_after_completion_witness :
  waitUntilFinished (final None one_task_one_action) = Resolved ().
Proof.
  apply (no_more_actions_only_after_completion None one_task_one_action
           (final None one_task_one_action)
           (history None one_task_one_action)).
  - vm_compute. reflexivity.
  - vm_compute. lia.
Defined.

(** ** The gate, along a run *)

Section gate.

Lemma alter_resolve_last n :
  alter (resolvePromise ()) n (replicate n (Resolved ()) ++ [Pending])
  = replicate (S n) (Resolved ()).
Proof.
  induction n as [|n IH]; simpl; [done|]. f_equal. exact IH.
Qed.

Lemma replicate_snoc_resolved n :
  replicate n (Resolved ()) ++ [Resolved ()]
  = replicate (S n) (@Resolved unit ()).
Proof. induction n as [|n IH]; simpl; [done|]. f_equal. exact IH. Qed.

Lemma gate_inv_step i s s' e :
  gate_inv s → step i s = Some (s', e) → gate_inv s'.
Proof.
  unfold gate_inv. intros (Hfields & Hlist & Hwait) H.
  break_step H.
  all: repeat match goal with
    | Hp : pluck _ _ = Some _ |- _ =>
        apply pluck_Permutation in Hp; rewrite Hp in Hwait;
        apply Forall_cons in Hwait as [? Hwait]
    end.
  all: simplify_eq/=.
  all: rewrite ?alter_resolve_last in *.
  all: split; [done|].
  all: split;
    [ rewrite ?length_app, ?length_replicate; simpl;
      rewrite ?Nat.add_1_r, ?replicate_snoc_resolved;
      first [done | by f_equal] |].
  all: rewrite ?Forall_app, ?Forall_cons, ?Forall_nil; repeat split;
    try done;
    try (eapply Forall_impl; [exact Hwait|];
         intros th Hth q Hq; specialize (Hth q Hq);
         rewrite ?length_app, ?length_replicate in *; simpl in *; lia);
    try (intros q Hq; simplify_eq/=;
         rewrite ?length_app, ?length_replicate in *; simpl in *; lia).
Qed.

Lemma runs_gate_inv ceiling ins s h : runs ceiling ins s h → gate_inv s.
Proof.
  revert ceiling ins s h. apply (runs_ind (λ s _, gate_inv s)).
  - intros c. repeat split. constructor.
  - intros i s h s' e. apply gate_inv_step.
Qed.

Lemma lookup_replicate_snoc {X} (x y : X) n p :
  p < n → (replicate n x ++ [y]) !! p = Some x.
Proof.
  intros Hp. rewrite lookup_app_l by (rewrite length_replicate; lia).
  by apply lookup_replicate_2.
Qed.

Lemma gate_inv_blocked s t p :
  gate_inv s → t ∈ threads s → gate_wait t = Some p →
  awaited p s = false →
  is_Some p ∧ p = _notifyPromise (op s).
Proof.
  intros (_ & Hlist & Hwait) Hin Ht Hblocked.
  rewrite Forall_forall in Hwait. specialize (Hwait t Hin).
  destruct p as [p|]; [|done]. specialize (Hwait p Ht).
  split; [by eexists|].
  unfold awaited in Hblocked.
  destruct (_notifyPromise (op s)) as [p0|].
  - rewrite Hlist in Hwait, Hblocked.
    rewrite length_app, length_replicate in Hwait. simpl in Hwait.
    destruct (decide (p = p0)) as [->|Hne]; [done|].
    rewrite lookup_replicate_snoc in Hblocked by lia. done.
  - rewrite Hlist in Hblocked.
    rewrite lookup_replicate_2 in Hblocked by done. done.
Qed.

Lemma step_notifies i s s' e :
  gate_inv s → notifies i = true → step i s = Some (s', e) →
  _notifyPromise (op s') = None.
Proof.
  intros (Hfields & _) Hi H.
  break_step H; simplify_eq/=; done.
Qed.

End gate.

(** No continuation is left behind at the gate: in every run a
    continuation that waits at the gate and cannot be resumed waits for the
    promise that is installed, the one the next [notifyAll] resolves. *)
Theorem blocked_at_the_gate_means_installed ceiling ins s h t p :
  runs ceiling ins s h →
  t ∈ threads s →
  gate_wait t = Some p →
  awaited p s = false →
  is_Some p ∧ p = _notifyPromise (op s).
Proof. intros Hr%runs_gate_inv. by apply gate_inv_blocked. Qed.

Lemma blocked_at_the_gate_means_installed_witness :
  is_Some (Some 0) ∧
  Some 0 = _notifyPromise (op (final (Some (whole 1)) first_wait_released)).
Proof.
  apply (blocked_at_the_gate_means_installed (Some (whole 1)) first_wait_released
           (final (Some (whole 1)) first_wait_released)
           (history (Some (whole 1)) first_wait_released)
           (InGetNextActionWait 0 (Some 0)) (Some 0)).
  - vm_compute. reflexivity.
  - vm_compute. apply list_elem_of_here.
  - reflexivity.
  - vm_compute. reflexivity.
Defined.

(** [notifyAll] wakes everybody: after a submission or after the handler of
    a settled task, every continuation that waits at the gate can be
    resumed, and no promise is installed. *)
Theorem notifying_releases_every_waiter ceiling ins s h i s' e t p :
  runs ceiling ins s h →
  notifies i = true →
  step i s = Some (s', e) →
  t ∈ threads s' →
  gate_wait t = Some p →
  awaited p s' = true ∧ _notifyPromise (op s') = None.
Proof.
  intros Hinv%runs_gate_inv Hi Hstep Hin Ht.
  pose proof (step_notifies _ _ _ _ Hinv Hi Hstep) as Hnone.
  split; [|done].
  destruct (awaited p s') eqn:Hblocked; [done|].
  destruct (gate_inv_blocked s' t p) as [[q ->] Hq]; try done.
  - by eapply gate_inv_step.
  - rewrite Hnone in Hq. done.
Qed.

Lemma notifying_releases_every_waiter_witness :
  awaited (Some 0) released_by_submit.1 = true ∧
  _notifyPromise (op released_by_submit.1) = None.
Proof.
  apply (notifying_releases_every_waiter (Some (whole 1)) first_wait_released
           (final (Some (whole 1)) first_wait_released)
           (history (Some (whole 1)) first_wait_released)
           (Submit 5) released_by_submit.1 released_by_submit.2
           (InGetNextActionWait 0 (Some 0)) (Some 0)).
  - vm_compute. reflexivity.
  - reflexivity.
  - vm_compute. reflexivity.
  - vm_compute. apply list_elem_of_here.
  - reflexivity.
Defined.

(** ** The promises handed to submitters, continued *)

Section resolved_handles.

(** A resolved promise of [performAction] keeps its value. *)
Lemma step_resolved_stable p r i s s' e :
  handles s !! p = Some (Resolved r) →
  step i s = Some (s', e) →
  handles s' !! p = Some (Resolved r).
Proof.
  intros Hp Hstep%step_held.
  destruct i as [|x| | |w action [result|]|w action|q|]; destruct Hstep as [_ ->];
    try done.
  - rewrite lookup_app_l; [done|]. by eapply lookup_lt_Some.
  - destruct (decide (callback action = p)) as [<-|Hne].
    + by rewrite list_lookup_alter_eq, Hp.
    + by rewrite list_lookup_alter_ne.
Qed.

Lemma exec_resolved_stable p r ins s s' h :
  handles s !! p = Some (Resolved r) →
  exec ins s = Some (s', h) →
  handles s' !! p = Some (Resolved r).
Proof.
  revert s h. induction ins as [|i ins IH]; simpl; intros s h Hp H.
  - by simplify_eq.
  - destruct (step i s) as [[sa ea]|] eqn:Hstep; simpl in *; [|done].
    destruct (exec ins sa) as [[sb eb]|] eqn:Hb; simpl in *; [|done].
    simplify_eq. eapply IH; [|done]. by eapply step_resolved_stable.
Qed.

Lemma runner_resolves_reported w action result s s' e :
  step (RunnerReturns w action (Some result)) s = Some (s', e) →
  e = [EvOutcome w Succeeded] ∧ InWorkerRun w Succeeded ∈ threads s'.
Proof.
  intros H. break_step H. split; [done|].
  apply elem_of_app. right. apply list_elem_of_here.
Qed.

Lemma runner_resolves_handle w action result s s' e :
  handles_inv s →
  step (RunnerReturns w action (Some result)) s = Some (s', e) →
  handles s' !! callback action = Some (Resolved result).
Proof.
  intros [_ Hpending] [Hheld ->]%step_held.
  rewrite list_lookup_alter_eq, Hpending; [done|].
  rewrite Hheld. apply list_elem_of_here.
Qed.

Lemma count_resolved_app l1 l2 :
  count_resolved (l1 ++ l2) = count_resolved l1 + count_resolved l2.
Proof. induction l1 as [|p l1 IH]; simpl; [done|]. rewrite IH. lia. Qed.

Lemma count_resolved_alter r p l :
  l !! p = Some Pending →
  count_resolved (alter (resolvePromise r) p l) = S (count_resolved l).
Proof.
  revert p. induction l as [|x l IH]; intros [|p] Hp; simplify_eq/=.
  - done.
  - rewrite (IH p Hp). lia.
Qed.

Lemma step_succeeded i s s' e :
  step i s = Some (s', e) →
  outcomes Succeeded e
  = match i with RunnerReturns _ _ (Some _) => 1 | _ => 0 end.
Proof. intros H. break_step H; done. Qed.

Lemma step_callbacks i s s' e :
  step i s = Some (s', e) →
  callback <$> submitted e
  = seq (length (handles s)) (length (handles s') - length (handles s)).
Proof.
  intros H. pose proof (step_held _ _ _ _ H) as Hheld.
  destruct i as [|x| | |w action r|w action|q|]; destruct Hheld as [_ Hh]; rewrite Hh;
    rewrite ?length_app; simpl;
    try (destruct r; rewrite ?length_alter);
    rewrite ?Nat.sub_diag; try replace (_ + 1 - _) with 1 by lia;
    break_step H; done.
Qed.

(** A resolved promise of the async function keeps its value. *)
Lemma step_returned_stable p r i s s' e :
  returned s !! p = Some (Resolved r) →
  step i s = Some (s', e) →
  returned s' !! p = Some (Resolved r).
Proof.
  intros Hp Hstep%step_returned.
  destruct i as [|x| | |w action res|w action|q|]; try (by rewrite Hstep).
  - rewrite Hstep, lookup_app_l; [done|]. by eapply lookup_lt_Some.
  - destruct Hstep as (r' & _ & ->).
    destruct (decide (q = p)) as [->|Hne].
    + by rewrite list_lookup_alter_eq, Hp.
    + by rewrite list_lookup_alter_ne.
Qed.

Lemma exec_returned_stable p r ins s s' h :
  returned s !! p = Some (Resolved r) →
  exec ins s = Some (s', h) →
  returned s' !! p = Some (Resolved r).
Proof.
  revert s h. induction ins as [|i ins IH]; simpl; intros s h Hp H.
  - by simplify_eq.
  - destruct (step i s) as [[sa ea]|] eqn:Hstep; simpl in *; [|done].
    destruct (exec ins sa) as [[sb eb]|] eqn:Hb; simpl in *; [|done].
    simplify_eq. eapply IH; [|done]. by eapply step_returned_stable.
Qed.

(** The promise of the async function is pending or has the value of the
    promise made on L78. *)
Lemma returned_inv_follows s p r :
  returned_inv s → handles s !! p = Some (Resolved r) →
  returned s !! p = Some Pending ∨ returned s !! p = Some (Resolved r).
Proof.
  intros [Hlen Hfollow] Hp.
  destruct (returned s !! p) as [st|] eqn:Hst.
  - destruct (Hfollow p st Hst) as [->|Hh]; [by left|right]. congruence.
  - apply lookup_ge_None in Hst. apply lookup_lt_Some in Hp. lia.
Qed.

(** Taking the value of a resolved promise of L78 resolves the promise of
    the async function with it. *)
Lemma adopt_resolves p r s s' e :
  returned_inv s → handles s !! p = Some (Resolved r) →
  step (Adopt p) s = Some (s', e) →
  returned s' !! p = Some (Resolved r).
Proof.
  intros Hinv Hp Hstep.
  destruct (step_returned _ _ _ _ Hstep) as (r' & Hr' & ->).
  rewrite list_lookup_alter_eq.
  destruct (returned_inv_follows _ _ _ Hinv Hp) as [->| ->]; simpl; congruence.
Qed.

Lemma exec_adopted p r ins s s' h :
  returned_inv s → handles s !! p = Some (Resolved r) →
  exec ins s = Some (s', h) →
  Adopt p ∈ ins →
  returned s' !! p = Some (Resolved r).
Proof.
  revert s h. induction ins as [|i ins IH]; simpl; intros s h Hinv Hp H Hin.
  - by apply elem_of_nil in Hin.
  - destruct (step i s) as [[sa ea]|] eqn:Hstep; simpl in *; [|done].
    destruct (exec ins sa) as [[sb eb]|] eqn:Hb; simpl in *; [|done].
    simplify_eq.
    apply elem_of_cons in Hin as [<-|Hin].
    + eapply exec_returned_stable; [|done]. by eapply adopt_resolves.
    + eapply IH; [| |done|done].
      * by eapply returned_inv_step.
      * by eapply step_resolved_stable.
Qed.

End resolved_handles.

(** When the runner of a worker resolves with [result] for an action, the
    worker is told [Succeeded] and the promise made on L78 for that action
    is resolved with [result], then and after whatever happens next.  The
    promise that [performAction] returned is the one of the async function:
    it is still pending when the callback returns, it is pending or
    resolved with [result] ever after, and it is resolved with [result]
    once it has taken the value of the promise of L78. *)
Theorem runner_success_resolves_handle_for_good
    ceiling ins s h w action result s1 e1 ins' s2 e2 :
  runs ceiling ins s h →
  step (RunnerReturns w action (Some result)) s = Some (s1, e1) →
  exec ins' s1 = Some (s2, e2) →
  e1 = [EvOutcome w Succeeded] ∧
  InWorkerRun w Succeeded ∈ threads s1 ∧
  handles s1 !! callback action = Some (Resolved result) ∧
  returned s1 !! callback action = Some Pending ∧
  handles s2 !! callback action = Some (Resolved result) ∧
  (returned s2 !! callback action = Some Pending ∨
   returned s2 !! callback action = Some (Resolved result)) ∧
  (Adopt (callback action) ∈ ins' →
   returned s2 !! callback action = Some (Resolved result)).
Proof.
  intros Hr Hstep Hexec.
  pose proof (runs_handles_inv _ _ _ _ Hr) as Hinv.
  assert (returned_inv s) as Hret.
  { eapply exec_returned_inv; [|exact Hr].
    split; [done|]. intros p st Hl. simpl in Hl. by rewrite lookup_nil in Hl. }
  assert (returned_inv s1) as Hret1 by (by eapply returned_inv_step).
  assert (handles s1 !! callback action = Some (Resolved result)) as Hh1
    by (by eapply runner_resolves_handle).
  assert (handles s2 !! callback action = Some (Resolved result)) as Hh2
    by (by eapply exec_resolved_stable).
  destruct (runner_resolves_reported _ _ _ _ _ _ Hstep) as [He Hthread].
  split; [done|]. split; [done|]. split; [done|]. split.
  { rewrite (step_returned _ _ _ _ Hstep).
    apply returned_inv_pending; [done|].
    destruct Hinv as [_ Hpending]. apply Hpending.
    apply step_held in Hstep as [-> _]. apply list_elem_of_here. }
  split; [done|]. split.
  - apply returned_inv_follows; [|done]. by eapply exec_returned_inv.
  - intros Hin. by eapply exec_adopted.
Qed.

Lemma runner_success_resolves_handle_for_good_witness :
  runner_resolves.2 = [EvOutcome 0 Succeeded] ∧
  InWorkerRun 0 Succeeded ∈ threads runner_resolves.1 ∧
  handles runner_resolves.1 !! callback (mkWrapped 5 0) = Some (Resolved 10) ∧
  returned runner_resolves.1 !! callback (mkWrapped 5 0) = Some Pending ∧
  handles after_adoption.1 !! callback (mkWrapped 5 0) = Some (Resolved 10) ∧
  (returned after_adoption.1 !! callback (mkWrapped 5 0) = Some Pending ∨
   returned after_adoption.1 !! callback (mkWrapped 5 0)
   = Some (Resolved 10)) ∧
  (Adopt (callback (mkWrapped 5 0)) ∈ runner_resolves_adopted →
   returned after_adoption.1 !! callback (mkWrapped 5 0)
   = Some (Resolved 10)).
Proof.
  apply (runner_success_resolves_handle_for_good None runner_rejects_before
           (final None runner_rejects_before)
           (history None runner_rejects_before)
           0 (mkWrapped 5 0) 10 runner_resolves.1 runner_resolves.2
           runner_resolves_adopted
           after_adoption.1 after_adoption.2);
    vm_compute; reflexivity.
Defined.

(** In that run the submitter's promise is pending when the worker is told
    [Succeeded] and while the next action is handled, and holds 10 once it
    has taken the value of the promise of L78. *)
Example submitter_sees_the_result_later :
  returned runner_resolves.1 = [Pending] ∧
  handles runner_resolves.1 = [Resolved 10] ∧
  returned after_runner_resolves.1 = [Pending; Pending] ∧
  returned after_adoption.1 = [Resolved 10; Pending] ∧
  handles after_adoption.1 = [Resolved 10; Pending].
Proof. vm_compute. repeat split; reflexivity. Qed.

Section callbacks.

Lemma runs_callbacks ceiling ins s h :
  runs ceiling ins s h →
  callback <$> submitted h = seq 0 (length (handles s)).
Proof.
  revert ceiling ins s h.
  apply (runs_ind (λ s h, callback <$> submitted h
                          = seq 0 (length (handles s)))).
  - done.
  - intros i s h s' e IH Hstep.
    pose proof (step_callbacks _ _ _ _ Hstep) as Hcb.
    assert (length (handles s) ≤ length (handles s')) as Hle.
    { apply step_held in Hstep.
      destruct i as [|x| | |w action r|w action|q|]; destruct Hstep as [_ ->];
        rewrite ?length_app; try destruct r; rewrite ?length_alter; lia. }
    unfold submitted in *. rewrite omap_app, fmap_app, IH, Hcb.
    rewrite <-seq_app. f_equal. lia.
Qed.

End callbacks.

(** Every call of [performAction] makes a promise of its own: in every run
    the callbacks of the submitted actions, in the order of submission, are
    the promises 0, 1, 2, ... made so far. *)
Theorem every_submission_gets_its_own_promise ceiling ins s h :
  runs ceiling ins s h →
  callback <$> submitted h = seq 0 (length (handles s)) ∧
  NoDup (callback <$> submitted h).
Proof.
  intros Heq%runs_callbacks. split; [done|]. rewrite Heq. apply NoDup_seq.
Qed.

Lemma every_submission_gets_its_own_promise_witness :
  callback <$> submitted (history None one_success_one_failure)
  = seq 0 (length (handles (final None one_success_one_failure))) ∧
  NoDup (callback <$> submitted (history None one_success_one_failure)).
Proof.
  apply (every_submission_gets_its_own_promise None one_success_one_failure
           (final None one_success_one_failure)
           (history None one_success_one_failure)).
  vm_compute. reflexivity.
Defined.

(** The resolved promises are the successes: in every run as many promises
    of [performAction] are resolved as runners have succeeded; a rejected
    runner resolves none. *)
Theorem resolved_promises_are_the_successes ceiling ins s h :
  runs ceiling ins s h →
  count_resolved (handles s) = outcomes Succeeded h.
Proof.
  intros Hr.
  assert (handles_inv s ∧ count_resolved (handles s) = outcomes Succeeded h)
    as [_ ?]; [|done].
  revert ceiling ins s h Hr. apply runs_ind.
  - intros c. split; [|done]. split; [constructor|].
    intros p Hin. by apply elem_of_nil in Hin.
  - intros i s h s' e [Hinv IH] Hstep.
    split; [by eapply handles_inv_step|].
    rewrite outcomes_app, <-IH, (step_succeeded _ _ _ _ Hstep).
    destruct Hinv as [_ Hpending].
    apply step_held in Hstep.
    destruct i as [|x| | |w action [result|]|w action|q|];
      destruct Hstep as [Hheld ->];
      rewrite ?count_resolved_app; simpl; try lia.
    rewrite count_resolved_alter; [lia|].
    apply Hpending. rewrite Hheld. apply list_elem_of_here.
Qed.

Lemma resolved_promises_are_the_successes_witness :
  count_resolved (handles (final None one_success_one_failure))
  = outcomes Succeeded (history None one_success_one_failure).
Proof.
  apply (resolved_promises_are_the_successes None one_success_one_failure
           (final None one_success_one_failure)
           (history None one_success_one_failure)).
  vm_compute. reflexivity.
Defined.

(** No action is handed out twice: in every run the dequeued actions are
    pairwise different submissions, and none of them is still queued. *)
Theorem no_action_is_dequeued_twice ceiling ins s h :
  runs ceiling ins s h →
  NoDup (callback <$> dequeued h) ∧
  ∀ action, action ∈ dequeued h → action ∉ queuedActions (op s).
Proof.
  intros Hr. pose proof (runs_callbacks _ _ _ _ Hr) as Hcb.
  apply exec_queue in Hr as [_ Hq]. simpl in Hq.
  assert (NoDup (callback <$> submitted h)) as Hnodup.
  { rewrite Hcb. apply NoDup_seq. }
  rewrite Hq, fmap_app in Hnodup.
  apply NoDup_app in Hnodup as (Hd & Hdisj & _). split; [done|].
  intros action Hin Hqueued.
  apply (Hdisj (callback action)); by apply list_elem_of_fmap_2.
Qed.

Lemma no_action_is_dequeued_twice_witness :
  NoDup (callback <$> dequeued (history None one_success_one_failure)) ∧
  ∀ action, action ∈ dequeued (history None one_success_one_failure) →
            action ∉ queuedActions (op (final None one_success_one_failure)).
Proof.
  apply (no_action_is_dequeued_twice None one_success_one_failure
           (final None one_success_one_failure)
           (history None one_success_one_failure)).
  vm_compute. reflexivity.
Defined.

(** ** Without workers, and other facts of a run *)

Section without_workers.

Lemma idle_step i s s' e :
  idle s → is_register i = false → step i s = Some (s', e) →
  idle s' ∧ calls e = 0 ∧ started e = [] ∧ dequeued e = [] ∧
  taskProvider (op s') = taskProvider (op s).
Proof.
  unfold idle. intros (Hthreads & Hbodies & Hpending) Hi H.
  break_step H; simplify_eq/=; done.
Qed.

Lemma idle_exec ins s s' h :
  idle s → Forall (λ i, is_register i = false) ins →
  exec ins s = Some (s', h) →
  idle s' ∧ calls h = 0 ∧ started h = [] ∧ dequeued h = [] ∧
  taskProvider (op s') = taskProvider (op s).
Proof.
  revert s h. induction ins as [|i ins IH]; simpl; intros s h Hs Hins H.
  - by simplify_eq.
  - apply Forall_cons in Hins as [Hi Hins].
    destruct (step i s) as [[sa ea]|] eqn:Hstep; simpl in *; [|done].
    destruct (exec ins sa) as [[sb eb]|] eqn:Hb; simpl in *; [|done].
    simplify_eq.
    destruct (idle_step _ _ _ _ Hs Hi Hstep) as (Ha & Hc & Hst & Hd & Hp).
    destruct (IH _ _ Ha Hins Hb) as (Hb' & Hc' & Hst' & Hd' & Hp').
    unfold started, dequeued in *.
    rewrite calls_app, !omap_app, Hc, Hc', Hst, Hst', Hd, Hd', Hp', Hp.
    done.
Qed.

End without_workers.

(** Without a registered worker nothing is pulled: whatever else happens,
    the provider is never asked, no task is started, no action is dequeued
    (what was submitted stays queued), and the promise of
    [waitUntilFinished] stays pending. *)
Theorem nothing_happens_without_workers ceiling ins s h :
  runs ceiling ins s h →
  Forall (λ i, is_register i = false) ins →
  waitUntilFinished s = Pending ∧
  calls h = 0 ∧
  started h = [] ∧
  dequeued h = [] ∧
  queuedActions (op s) = submitted h ∧
  taskProvider (op s) = true.
Proof.
  intros Hr Hins.
  destruct (idle_exec ins (new_Operation ceiling) s h) as
    ((_ & _ & Hp) & Hc & Hst & Hd & Hprov); [done..|].
  apply exec_queue in Hr as [_ Hq]. rewrite Hd in Hq. simpl in Hq.
  by repeat split.
Qed.

Lemma nothing_happens_without_workers_witness :
  waitUntilFinished (final None submissions_only) = Pending ∧
  calls (history None submissions_only) = 0 ∧
  started (history None submissions_only) = [] ∧
  dequeued (history None submissions_only) = [] ∧
  queuedActions (op (final None submissions_only))
  = submitted (history None submissions_only) ∧
  taskProvider (op (final None submissions_only)) = true.
Proof.
  apply (nothing_happens_without_workers None submissions_only
           (final None submissions_only) (history None submissions_only)).
  - vm_compute. reflexivity.
  - repeat constructor.
Defined.

Section growth.

Lemma step_workers i s s' e :
  step i s = Some (s', e) →
  workers (op s') = workers (op s)
                    ++ match i with RegisterWorker w => [w] | _ => [] end.
Proof. intros H. break_step H; simpl; rewrite ?app_nil_r; done. Qed.

End growth.

(** Along any inputs the configured ceiling is unchanged, registered
    workers stay registered in the order of registration, and the
    effective ceiling never decreases. *)
Theorem ceiling_never_decreases ins s s' h :
  exec ins s = Some (s', h) →
  maxConcurrentTasks (op s') = maxConcurrentTasks (op s) ∧
  workers (op s) `prefix_of` workers (op s') ∧
  not_lower (getMaxConcurrentTasks (op s)) (getMaxConcurrentTasks (op s')).
Proof.
  intros H.
  apply (exec_ind
           (λ s1 _,
              maxConcurrentTasks (op s1) = maxConcurrentTasks (op s) ∧
              workers (op s) `prefix_of` workers (op s1) ∧
              not_lower (getMaxConcurrentTasks (op s))
                (getMaxConcurrentTasks (op s1))))
    with (h := []) in H.
  - done.
  - clear. intros i sa h sb e (IHc & IHw & IHm) Hstep.
    destruct (step_ceiling_mono _ _ _ _ Hstep) as [Hc Hm].
    pose proof (step_workers _ _ _ _ Hstep) as Hw.
    split; [congruence|]. split; [|by eapply not_lower_trans].
    rewrite Hw. by apply prefix_app_r.
  - split; [done|]. split; [done|]. apply not_lower_refl.
Qed.

Lemma ceiling_never_decreases_witness :
  maxConcurrentTasks (op (final None two_workers_empty_supply))
  = maxConcurrentTasks (op (new_Operation None)) ∧
  workers (op (new_Operation None))
  `prefix_of` workers (op (final None two_workers_empty_supply)) ∧
  not_lower (getMaxConcurrentTasks (op (new_Operation None)))
    (getMaxConcurrentTasks (op (final None two_workers_empty_supply))).
Proof.
  apply (ceiling_never_decreases two_workers_empty_supply
           (new_Operation None)
           (final None two_workers_empty_supply)
           (history None two_workers_empty_supply)).
  vm_compute. reflexivity.
Defined.

Section remove_running.

Lemma indexOf_app_first t l1 l2 :
  t ∉ l1 → indexOf t (l1 ++ t :: l2) = Some (length l1).
Proof.
  induction l1 as [|x l1 IH]; simpl; intros Hnotin.
  - by rewrite decide_True.
  - apply not_elem_of_cons in Hnotin as [Hne Hnotin].
    rewrite decide_False by done. by rewrite IH.
Qed.

Lemma indexOf_absent t l : t ∉ l → indexOf t l = None.
Proof.
  induction l as [|x l IH]; simpl; intros Hnotin; [done|].
  apply not_elem_of_cons in Hnotin as [Hne Hnotin].
  rewrite decide_False by done. by rewrite IH.
Qed.

End remove_running.

(** L145-146, L152-153: the handler of a settled task takes the first entry
    of that task out of the running set and leaves every other entry, also
    later entries of the same task, in place; when the task is not in the
    set nothing changes. *)
Theorem removeRunning_takes_first_occurrence t l1 l2 :
  t ∉ l1 →
  removeRunning t (l1 ++ t :: l2) = l1 ++ l2 ∧
  removeRunning t l1 = l1.
Proof.
  intros Hnotin. unfold removeRunning. split.
  - rewrite indexOf_app_first by done.
    by rewrite delete_middle.
  - by rewrite indexOf_absent.
Qed.

Lemma removeRunning_takes_first_occurrence_witness :
  removeRunning 7 ([8] ++ 7 :: [9; 7]) = [8] ++ [9; 7] ∧
  removeRunning 7 [8] = [8].
Proof.
  apply (removeRunning_takes_first_occurrence 7 [8] [9; 7]).
  intros Hin. apply list_elem_of_singleton in Hin. discriminate.
Defined.
